(** * Funnel builder: graph store, connection rule, labels and validation

    A shallow embedding of the funnel editor's domain logic:
    - [src/types/nodes.ts]: the five node types and their templates;
    - [src/components/ValidationPanel.tsx]: the validation pass and what
      the panel shows of it;
    - [App.tsx] (the listing that closes docs/dashboard-architecture.md):
      the React state (nodes, edges, counters) and the handlers
      [onConnect], [onDrop], [handleImport] and [onNodesDelete].

    Conventions.  JavaScript numbers that only ever hold integers (the
    label counters, [Date.now()], grid-snapped coordinates) are [Z]; the
    counters are the one place where the code computes with them, and
    there the sum is rounded to a double as JavaScript rounds it; the
    counters object, a [Record<string, number>], is a [gmap string Z];
    arrays are lists, and [arr.push(x)] is [arr ++ [x]]; a handler is a
    function from the React state to the next state, paired with what it
    shows in an [alert] when it has one.  What is written to
    [localStorage] is not read again during a session and is left out;
    the write inside the [try] of [handleImport] is there through its
    outcome, since its failure lands in the [catch], and the writes
    outside a [try] are taken to succeed. *)

From Stdlib Require Import Ascii.
From stdpp Require Import base strings gmap list sorting pretty.

Open Scope string_scope.
Open Scope list_scope.
Open Scope Z_scope.

(** ** src/types/nodes.ts *)

Inductive NodeType : Set :=
  | salesPage
  | orderPage
  | upsell
  | downsell
  | thankYou.

#[global] Instance NodeType_eq_dec : EqDecision NodeType.
Proof. solve_decision. Defined.

(** The string a [NodeType] is at run time. *)
Definition typeName (t : NodeType) : string :=
  match t with
  | salesPage => "salesPage"
  | orderPage => "orderPage"
  | upsell => "upsell"
  | downsell => "downsell"
  | thankYou => "thankYou"
  end.

Record FunnelNodeData : Set := {
  label : string;
  type : NodeType;
  buttonLabel : string;
  icon : string;
}.

#[global] Instance FunnelNodeData_eq_dec : EqDecision FunnelNodeData.
Proof. solve_decision. Defined.

Record NodeTemplate : Set := {
  tpl_type : NodeType;
  tpl_label : string;
  tpl_buttonLabel : string;
  tpl_icon : string;
  tpl_color : string;
  tpl_description : string;
}.

Definition NODE_TEMPLATES (t : NodeType) : NodeTemplate :=
  match t with
  | salesPage =>
      {| tpl_type := salesPage; tpl_label := "Sales Page";
         tpl_buttonLabel := "Buy Now"; tpl_icon := "📄";
         tpl_color := "#3b82f6";
         tpl_description := "Landing page to sell your product" |}
  | orderPage =>
      {| tpl_type := orderPage; tpl_label := "Order Page";
         tpl_buttonLabel := "Complete Order"; tpl_icon := "🛒";
         tpl_color := "#10b981";
         tpl_description := "Checkout page for customer details" |}
  | upsell =>
      {| tpl_type := upsell; tpl_label := "Upsell";
         tpl_buttonLabel := "Yes, Add This!"; tpl_icon := "⬆️";
         tpl_color := "#f59e0b";
         tpl_description := "Offer additional products" |}
  | downsell =>
      {| tpl_type := downsell; tpl_label := "Downsell";
         tpl_buttonLabel := "Get This Instead"; tpl_icon := "⬇️";
         tpl_color := "#ef4444";
         tpl_description := "Alternative offer if upsell declined" |}
  | thankYou =>
      {| tpl_type := thankYou; tpl_label := "Thank You";
         tpl_buttonLabel := "Continue"; tpl_icon := "✅";
         tpl_color := "#8b5cf6";
         tpl_description := "Order confirmation page" |}
  end.

(** ** The graph library's node, edge and connection objects

    Only the fields the application reads or writes are kept. *)

Record XYPosition : Set := { x : Z; y : Z }.

#[global] Instance XYPosition_eq_dec : EqDecision XYPosition.
Proof. solve_decision. Defined.

Record Node : Set := {
  node_id : string;
  node_type : string;
  position : XYPosition;
  data : FunnelNodeData;
}.

#[global] Instance Node_eq_dec : EqDecision Node.
Proof. solve_decision. Defined.

Inductive MarkerType : Set := Arrow | ArrowClosed.

#[global] Instance MarkerType_eq_dec : EqDecision MarkerType.
Proof. solve_decision. Defined.

Record Edge : Set := {
  edge_id : string;
  source : string;
  target : string;
  sourceHandle : option string;
  targetHandle : option string;
  edge_type : option string;
  animated : bool;
  markerEnd : option MarkerType;
}.

#[global] Instance Edge_eq_dec : EqDecision Edge.
Proof. solve_decision. Defined.

Record Connection : Set := {
  conn_source : string;
  conn_target : string;
  conn_sourceHandle : option string;
  conn_targetHandle : option string;
}.

(** ** src/components/ValidationPanel.tsx *)

Inductive Severity : Set := error | warning.

#[global] Instance Severity_eq_dec : EqDecision Severity.
Proof. solve_decision. Defined.

Record ValidationIssue : Set := {
  issue_type : Severity;
  message : string;
  nodeId : option string;
}.

#[global] Instance ValidationIssue_eq_dec : EqDecision ValidationIssue.
Proof. solve_decision. Defined.

(** [arr.push(x)] and [arr.forEach(body)] over an accumulator that the
    body updates. *)
Definition push {A : Type} (arr : list A) (x : A) : list A := arr ++ [x].

Definition forEach {A S : Type} (arr : list A) (body : A → S → S) (s : S) : S :=
  foldl (λ acc a, body a acc) s arr.

(** The double quote that the messages put around a label. *)
Definition dquote : string := String "034"%char EmptyString.

Definition quoted (s : string) : string := dquote +:+ s +:+ dquote.

Definition hasIncoming (edges : list Edge) (node : Node) : bool :=
  existsb (λ e, bool_decide (target e = node_id node)) edges.

Definition hasOutgoing (edges : list Edge) (node : Node) : bool :=
  existsb (λ e, bool_decide (source e = node_id node)) edges.

(** The body of [nodes.forEach((node) => ...)], lines 21-68. *)
Definition checkNode (edges : list Edge) (node : Node)
    (problems : list ValidationIssue) : list ValidationIssue :=
  let hasIncoming := hasIncoming edges node in
  let hasOutgoing := hasOutgoing edges node in
  let nodeData := data node in
  let nodeType := type nodeData in
  let problems :=
    if bool_decide (nodeType = salesPage) && negb hasOutgoing
    then push problems
           {| issue_type := warning;
              message := quoted (label nodeData) +:+ " has no outgoing connection";
              nodeId := Some (node_id node) |}
    else problems in
  let problems :=
    if bool_decide (nodeType = thankYou) && negb hasIncoming
    then push problems
           {| issue_type := warning;
              message := quoted (label nodeData) +:+ " has no incoming connection";
              nodeId := Some (node_id node) |}
    else problems in
  if bool_decide (nodeType ≠ salesPage) && bool_decide (nodeType ≠ thankYou)
  then
    if negb hasIncoming && negb hasOutgoing
    then push problems
           {| issue_type := error;
              message := quoted (label nodeData) +:+ " is orphaned (no connections)";
              nodeId := Some (node_id node) |}
    else if negb hasIncoming
    then push problems
           {| issue_type := warning;
              message := quoted (label nodeData) +:+ " has no incoming connection";
              nodeId := Some (node_id node) |}
    else if negb hasOutgoing
    then push problems
           {| issue_type := warning;
              message := quoted (label nodeData) +:+ " has no outgoing connection";
              nodeId := Some (node_id node) |}
    else problems
  else problems.

(** The body of [salesPages.forEach((sp) => ...)], lines 72-82. *)
Definition checkSalesPage (edges : list Edge) (sp : Node)
    (problems : list ValidationIssue) : list ValidationIssue :=
  let outgoing := filter (λ e, source e = node_id sp) edges in
  if bool_decide (1 < length outgoing)%nat
  then
    let spData := data sp in
    push problems
      {| issue_type := warning;
         message := quoted (label spData)
                    +:+ " has multiple outgoing connections (typically should have one)";
         nodeId := Some (node_id sp) |}
  else problems.

(** The function handed to [useMemo], lines 17-85. *)
Definition validate (nodes : list Node) (edges : list Edge) : list ValidationIssue :=
  let problems := [] in
  let problems := forEach nodes (checkNode edges) problems in
  let salesPages := filter (λ n, type (data n) = salesPage) nodes in
  let problems := forEach salesPages (checkSalesPage edges) problems in
  problems.

(** What the component renders, lines 87-136: the hint for an empty
    canvas, the all-clear box, or the issue list with its heading count,
    the items of [issues.slice(0, 5)] and the "+N more issues" line. *)
Inductive PanelView : Set :=
  | StartBuilding
  | LooksGood
  | IssueList (heading : nat) (shown : list ValidationIssue) (more : option nat).

Definition renderPanel (nodes : list Node) (issues : list ValidationIssue) : PanelView :=
  if bool_decide (length nodes = 0%nat) then StartBuilding
  else if bool_decide (length issues = 0%nat) then LooksGood
  else IssueList (length issues) (take 5 issues)
         (if bool_decide (5 < length issues)%nat
          then Some (length issues - 5)%nat else None).

(** The issue items a view puts on screen. *)
Definition shownIssues (view : PanelView) : list ValidationIssue :=
  match view with
  | IssueList _ shown _ => shown
  | _ => []
  end.

(** [useMemo(compute, deps)]: React keeps the dependencies and the value
    of the last computation and runs [compute] again only when the
    dependencies differ.  React compares them by identity; the model
    compares them by value. *)
Section UseMemo.
Context {D V : Type} `{EqDecision D}.

Definition MemoCell : Type := option (D * V).

Definition useMemo (compute : D → V) (deps : D) (cell : MemoCell) : V * MemoCell :=
  match cell with
  | Some (deps0, value0) =>
      if bool_decide (deps0 = deps) then (value0, cell)
      else let value := compute deps in (value, Some (deps, value))
  | None => let value := compute deps in (value, Some (deps, value))
  end.
End UseMemo.

Definition Props : Set := list Node * list Edge.

(** One render of [ValidationPanel] with props [{nodes, edges}]. *)
Definition ValidationPanel (props : Props) (cell : @MemoCell Props (list ValidationIssue))
    : list ValidationIssue * PanelView * MemoCell :=
  let '(issues, cell) := useMemo (λ d, validate (fst d) (snd d)) props cell in
  (issues, renderPanel (fst props) issues, cell).

(** The memo cell after a history of renders of a freshly mounted panel. *)
Definition renders (history : list Props) : @MemoCell Props (list ValidationIssue) :=
  foldl (λ cell props, snd (ValidationPanel props cell)) None history.

(** The memo cell holds what [validate] gives on the props it was filled
    for. *)
Definition memoSound (cell : @MemoCell Props (list ValidationIssue)) : Prop :=
  ∀ d v, cell = Some (d, v) → v = validate (fst d) (snd d).

(** ** App.tsx *)

Record AppState : Type := {
  nodes : list Node;
  edges : list Edge;
  counters : gmap string Z;
}.

(** [getNodeCounters], given what the 'funnel-counters' slot parses to. *)
Definition getNodeCounters (stored : option (gmap string Z)) : gmap string Z :=
  match stored with
  | Some c => c
  | None => <["upsell" := 0]> (<["downsell" := 0]> ∅)
  end.

Definition initialNodes : list Node := [].
Definition initialEdges : list Edge := [].

Definition initialState (stored : option (gmap string Z)) : AppState :=
  {| nodes := initialNodes; edges := initialEdges;
     counters := getNodeCounters stored |}.

Definition setNodes (nds : list Node) (st : AppState) : AppState :=
  {| nodes := nds; edges := edges st; counters := counters st |}.

Definition setEdges (eds : list Edge) (st : AppState) : AppState :=
  {| nodes := nodes st; edges := eds; counters := counters st |}.

Definition setCounters (c : gmap string Z) (st : AppState) : AppState :=
  {| nodes := nodes st; edges := edges st; counters := c |}.

(** The object [onConnect] hands to the library's [addEdge]. *)
Record EdgeParams : Set := {
  params : Connection;
  ep_type : string;
  ep_animated : bool;
  ep_markerEnd : MarkerType;
}.

(** JavaScript's numbers are IEEE doubles.  [toDouble z] is the double
    nearest to the integer [z], ties going to the even significand: [z]
    itself below 2^53, and a multiple of a power of two from there on. *)
Definition toDouble (z : Z) : Z :=
  let m := Z.abs z in
  if bool_decide (m < 2 ^ 53) then z
  else
    let e := Z.log2 m - 52 in
    let q := m / 2 ^ e in
    let r := m mod 2 ^ e in
    let half := 2 ^ (e - 1) in
    let q' :=
      if bool_decide (r < half) then q
      else if bool_decide (half < r) then q + 1
      else if Z.even q then q else q + 1 in
    Z.sgn z * (q' * 2 ^ e).

(** [a + b] on two integer-valued numbers. *)
Definition jsAdd (a b : Z) : Z := toDouble (a + b).

Definition decimalDigits (m : Z) : Z := Z.of_nat (String.length (pretty m)).

(** The integer with the fewest significant decimal digits that still
    rounds to the double [m], the nearest to [m] among those, as
    [Number.prototype.toString] chooses its digits. *)
Fixpoint shortestDecimal (fuel : nat) (k : Z) (m : Z) : Z :=
  match fuel with
  | O => m
  | S fuel =>
      let p := 10 ^ (decimalDigits m - k) in
      let lo := m / p * p in
      let hi := lo + p in
      match bool_decide (toDouble lo = m), bool_decide (toDouble hi = m) with
      | true, true =>
          if bool_decide (m - lo < hi - m) then lo
          else if bool_decide (hi - m < m - lo) then hi
          else if Z.even (lo / p) then lo else hi
      | true, false => lo
      | false, true => hi
      | false, false => shortestDecimal fuel (k + 1) m
      end
  end.

Fixpoint stripZeros (fuel : nat) (w : Z) : Z :=
  match fuel with
  | O => w
  | S fuel => if bool_decide (w mod 10 = 0) then stripZeros fuel (w / 10) else w
  end.

(** [`${v}`] on an integer-valued number: its decimal digits up to 2^53,
    the shortest digits that round to it, filled up with zeros, below
    10^21, and those digits in exponent notation from there on. *)
Definition jsNumberToString (v : Z) : string :=
  if bool_decide (Z.abs v ≤ 2 ^ 53) then pretty v
  else
    let m := Z.abs v in
    let w := shortestDecimal (Z.to_nat (decimalDigits m)) 1 m in
    let n := decimalDigits w in
    let sign := if bool_decide (v < 0) then "-" else EmptyString in
    if bool_decide (n ≤ 21) then sign +:+ pretty w
    else
      match pretty (stripZeros (Z.to_nat n) w) with
      | String d EmptyString =>
          sign +:+ String d EmptyString +:+ "e+" +:+ pretty (n - 1)
      | String d rest =>
          sign +:+ String d ("." +:+ rest) +:+ "e+" +:+ pretty (n - 1)
      | EmptyString => EmptyString
      end.

(** [n || 0] on a counter entry that may be missing. *)
Definition orZero (entry : option Z) : Z :=
  match entry with
  | Some n => if bool_decide (n = 0) then 0 else n
  | None => 0
  end.

(** [`${n}`] on a counter entry. *)
Definition numberToString (entry : option Z) : string :=
  match entry with
  | Some n => jsNumberToString n
  | None => "undefined"
  end.

(** [!deletedIds.has(e.source) && !deletedIds.has(e.target)] *)
Definition untouched (deletedIds : gset string) (e : Edge) : Prop :=
  (source e ∉ deletedIds) ∧ (target e ∉ deletedIds).

#[global] Instance untouched_dec deletedIds e : Decision (untouched deletedIds e).
Proof. unfold untouched. apply _. Defined.

(** [new Set(deleted.map((n) => n.id))] *)
Definition idSet (deleted : list Node) : gset string :=
  list_to_set (node_id <$> deleted).

(** [onNodesDelete], lines 662-666, as the update it gives [setEdges]. *)
Definition onNodesDelete (deleted : list Node) (eds : list Edge) : list Edge :=
  let deletedIds := idSet deleted in
  filter (untouched deletedIds) eds.

(** What a chosen file can turn out to be for [handleImport]: the value of
    a key of the parsed document as the two tests
    [data.k && Array.isArray(data.k)] see it, and the outcome of
    [JSON.parse] itself.  An array is taken at the element type the code
    casts it to. *)
Inductive JsField (A : Type) : Type :=
  | Missing
  | NotAnArray
  | IsArray (items : list A).
Arguments Missing {A}.
Arguments NotAnArray {A}.
Arguments IsArray {A} items.

Inductive Parsed : Type :=
  | ParseThrows
  | ParsedNull
  | ParsedValue (data_nodes : JsField Node) (data_edges : JsField Edge).

Inductive Thrown : Set := SyntaxError | TypeError | QuotaExceededError.

(** [data.k && Array.isArray(data.k)] *)
Definition isArrayField {A : Type} (field : JsField A) : bool :=
  match field with
  | IsArray _ => true
  | _ => false
  end.

(** A document with both keys present and both holding a sequence. *)
Definition hasBothArrays (data : Parsed) : bool :=
  match data with
  | ParsedValue data_nodes data_edges =>
      isArrayField data_nodes && isArrayField data_edges
  | _ => false
  end.

(** [handleImport], lines 637-660: the [onchange] callback.  [file] is
    [None] when no file was chosen; [storageFull] tells whether
    [localStorage.setItem(STORAGE_KEY, text)], the last statement of the
    [try], throws.  A throw leaves what [setNodes] and [setEdges] did
    before it in place and goes to the [catch]. *)
Definition handleImport (file : option Parsed) (storageFull : bool)
    (st : AppState) : AppState * option string :=
  match file with
  | None => (st, None)
  | Some data =>
      let try : AppState * option Thrown :=
        match data with
        | ParseThrows => (st, Some SyntaxError)
        | ParsedNull => (st, Some TypeError)
        | ParsedValue data_nodes data_edges =>
            let st :=
              match data_nodes with
              | IsArray items => setNodes items st
              | _ => st
              end in
            let st :=
              match data_edges with
              | IsArray items => setEdges items st
              | _ => st
              end in
            if storageFull then (st, Some QuotaExceededError) else (st, None)
        end in
      match try with
      | (st', None) => (st', None)
      | (st', Some _) => (st', Some "Invalid JSON file")
      end
  end.

(** [onDrop], lines 583-624.  [payload] is the drag payload read
    [as NodeType]: one of the five type names, which is all the palette
    writes, or [None] when it is empty or [NODE_TEMPLATES] has nothing
    under it.  A payload naming a member every object inherits, such as
    [constructor], is outside the drops described here.  [position] is
    what [reactFlowInstance?.screenToFlowPosition] gives, [now] the
    value of [Date.now()]. *)
Definition newNodeId (type : NodeType) (now : Z) : string :=
  typeName type +:+ "-" +:+ pretty now.

Definition newNode (type : NodeType) (position : XYPosition) (now : Z)
    (label : string) : Node :=
  let template := NODE_TEMPLATES type in
  {| node_id := newNodeId type now;
     node_type := "funnel";
     position := position;
     data := {| label := label; type := type;
                buttonLabel := tpl_buttonLabel template;
                icon := tpl_icon template |} |}.

Definition onDrop (payload : option NodeType) (position : option XYPosition)
    (now : Z) (st : AppState) : AppState :=
  match payload with
  | None => st
  | Some type =>
      let template := NODE_TEMPLATES type in
      match position with
      | None => st
      | Some position =>
          let label := tpl_label template in
          let newCounters := counters st in
          let '(label, st) :=
            if bool_decide (type = upsell) || bool_decide (type = downsell)
            then
              let newCounters :=
                <[typeName type := jsAdd (orZero (newCounters !! typeName type)) 1]>
                  newCounters in
              let label :=
                tpl_label template +:+ " "
                +:+ numberToString (newCounters !! typeName type) in
              (label, setCounters newCounters st)
            else (label, st) in
          let newNode := newNode type position now label in
          setNodes (nodes st ++ [newNode]) st
      end
  end.

Section Handlers.
(** [addEdge] belongs to the graph library and is a parameter here. *)
Variable addEdge : EdgeParams → list Edge → list Edge.

(** [onConnect], lines 553-576. *)
Definition onConnect (params : Connection) (st : AppState)
    : AppState * option string :=
  let sourceNode :=
    List.find (λ n, bool_decide (node_id n = conn_source params)) (nodes st) in
  let data := data <$> sourceNode in
  if bool_decide (type <$> data = Some thankYou)
  then (st, Some "Thank You pages cannot have outgoing connections")
  else
    (setEdges
       (addEdge
          {| params := params; ep_type := "smoothstep"; ep_animated := true;
             ep_markerEnd := ArrowClosed |}
          (edges st))
       st,
     None).
End Handlers.

(** ** The graph library's side of the mutations

    [addEdge], and the removal of nodes and edges that the library applies
    through [onNodesChange] and [onEdgesChange], are not part of the
    repository. *)

(** Modelled from the spec: the library's [addEdge] is missing from the
    sources.  Spec 4.1, "on success inserts a new edge with a fresh id",
    and 4.2, every connection that is not refused is added, parallel
    edges and self-loops included. *)
Definition appendEdge (p : EdgeParams) (eds : list Edge) : list Edge :=
  eds ++
  [ {| edge_id := fresh (edge_id <$> eds);
       source := conn_source (params p);
       target := conn_target (params p);
       sourceHandle := conn_sourceHandle (params p);
       targetHandle := conn_targetHandle (params p);
       edge_type := Some (ep_type p);
       animated := ep_animated p;
       markerEnd := Some (ep_markerEnd p) |} ].

(** Modelled from the spec: the library's removal of the deleted nodes is
    missing from the sources.  Spec 4.1, [deleteNodes] "removes all listed
    nodes". *)
Definition removeNodes (deleted : list Node) (nds : list Node) : list Node :=
  filter (λ n, node_id n ∉ idSet deleted) nds.

(** Modelled from the spec: the library's removal of one edge is missing
    from the sources.  Spec 4.1, [removeEdge(id)]: "simple removal". *)
Definition removeEdge (id : string) (eds : list Edge) : list Edge :=
  filter (λ e, edge_id e ≠ id) eds.

(** Deleting nodes: the library drops them from [nodes] and calls
    [onNodesDelete], whose [setEdges] lands in the same state update. *)
Definition deleteNodes (deleted : list Node) (st : AppState) : AppState :=
  setEdges (onNodesDelete deleted (edges st))
    (setNodes (removeNodes deleted (nodes st)) st).

(** ** The editing session as a run of events *)

Inductive Event : Type :=
  | Drop (payload : option NodeType) (position : option XYPosition) (now : Z)
  | Connect (params : Connection)
  | DeleteNodes (deleted : list Node)
  | RemoveEdge (id : string)
  | Import (file : option Parsed) (storageFull : bool).

Section Session.
Variable addEdge : EdgeParams → list Edge → list Edge.

Definition handle (ev : Event) (st : AppState) : AppState :=
  match ev with
  | Drop payload position now => onDrop payload position now st
  | Connect params => fst (onConnect addEdge params st)
  | DeleteNodes deleted => deleteNodes deleted st
  | RemoveEdge id => setEdges (removeEdge id (edges st)) st
  | Import file storageFull => fst (handleImport file storageFull st)
  end.

Definition run (evs : list Event) (st : AppState) : AppState :=
  foldl (λ st ev, handle ev st) st evs.

(** The node an event adds to the canvas, when it adds one. *)
Definition dropped (ev : Event) (st : AppState) : option Node :=
  match ev with
  | Drop (Some _) (Some _) _ => last (nodes (handle ev st))
  | _ => None
  end.

(** The nodes created along a run, in the order of their creation,
    whether or not they were deleted later. *)
Fixpoint created (evs : list Event) (st : AppState) : list Node :=
  match evs with
  | [] => []
  | ev :: evs => option_list (dropped ev st) ++ created evs (handle ev st)
  end.

(** The labels given to the nodes of one type along a run. *)
Definition labelsOf (t : NodeType) (evs : list Event) (st : AppState)
    : list string :=
  (λ n, label (data n)) <$> filter (λ n, type (data n) = t) (created evs st).
End Session.

Definition isImport (ev : Event) : bool :=
  match ev with Import _ _ => true | _ => false end.

(** The type and the timestamp of each drop that adds a node. *)
Fixpoint dropKeys (evs : list Event) : list (NodeType * Z) :=
  match evs with
  | [] => []
  | Drop (Some t) (Some _) now :: evs => (t, now) :: dropKeys evs
  | _ :: evs => dropKeys evs
  end.

(** The label [`${template.label} ${k}`] of a repeatable type. *)
Definition numberedLabel (t : NodeType) (k : Z) : string :=
  tpl_label (NODE_TEMPLATES t) +:+ " " +:+ pretty k.

(** The value [(counters[type] || 0) + 1] that a drop of a numbered type
    stores and prints. *)
Definition nextCount (entry : option Z) : Z := jsAdd (orZero entry) 1.

(** The numbers [c + 1, ..., c + n]. *)
Definition suffixes (c : Z) (n : nat) : list Z :=
  (λ k, c + Z.of_nat k) <$> seq 1 n.

(** ** Properties of a graph state *)

Definition nodeIds (st : AppState) : list string := node_id <$> nodes st.

(** Every edge starts and ends at a node of the graph. *)
Definition noDangling (st : AppState) : Prop :=
  Forall (λ e, source e ∈ nodeIds st ∧ target e ∈ nodeIds st) (edges st).

#[global] Instance noDangling_dec st : Decision (noDangling st).
Proof. unfold noDangling. apply _. Defined.


(** ** The validation rules as the specification words them *)

Definition noOutgoingWarning (n : Node) : ValidationIssue :=
  {| issue_type := warning;
     message := quoted (label (data n)) +:+ " has no outgoing connection";
     nodeId := Some (node_id n) |}.

Definition noIncomingWarning (n : Node) : ValidationIssue :=
  {| issue_type := warning;
     message := quoted (label (data n)) +:+ " has no incoming connection";
     nodeId := Some (node_id n) |}.

Definition orphanError (n : Node) : ValidationIssue :=
  {| issue_type := error;
     message := quoted (label (data n)) +:+ " is orphaned (no connections)";
     nodeId := Some (node_id n) |}.

Definition fanOutWarning (n : Node) : ValidationIssue :=
  {| issue_type := warning;
     message := quoted (label (data n))
                +:+ " has multiple outgoing connections (typically should have one)";
     nodeId := Some (node_id n) |}.

(** Spec 4.3, per-node rules. *)
Definition perNodeIssues_spec (edges : list Edge) (n : Node) : list ValidationIssue :=
  match type (data n) with
  | salesPage => if hasOutgoing edges n then [] else [noOutgoingWarning n]
  | thankYou => if hasIncoming edges n then [] else [noIncomingWarning n]
  | _ =>
      match hasIncoming edges n, hasOutgoing edges n with
      | false, false => [orphanError n]
      | false, true => [noIncomingWarning n]
      | true, false => [noOutgoingWarning n]
      | true, true => []
      end
  end.

Definition outDegree (edges : list Edge) (n : Node) : nat :=
  length (filter (λ e, source e = node_id n) edges).

(** Spec 4.3, global rule: the sales pages with more than one outgoing edge. *)
Definition fansOut (edges : list Edge) (n : Node) : Prop :=
  type (data n) = salesPage ∧ (1 < outDegree edges n)%nat.

#[global] Instance fansOut_dec edges n : Decision (fansOut edges n).
Proof. unfold fansOut. apply _. Defined.

(** Spec 4.3, output ordering. *)
Definition validate_spec (nodes : list Node) (edges : list Edge)
    : list ValidationIssue :=
  (nodes ≫= perNodeIssues_spec edges)
  ++ (fanOutWarning <$> filter (fansOut edges) nodes).

(** Spec 4.3, the three cases of a node that is neither a sales page nor a
    thank-you page, in their order of priority. *)
Definition middleIssues_spec (edges : list Edge) (n : Node) : list ValidationIssue :=
  if negb (hasIncoming edges n) && negb (hasOutgoing edges n) then [orphanError n]
  else if negb (hasIncoming edges n) then [noIncomingWarning n]
  else if negb (hasOutgoing edges n) then [noOutgoingWarning n]
  else [].

(** The issues of a list that are attached to one node id. *)
Definition issuesFor (id : string) (issues : list ValidationIssue)
    : list ValidationIssue :=
  filter (λ i, nodeId i = Some id) issues.

(** ** Sample data *)

Definition mkNode (id : string) (t : NodeType) (lbl : string) : Node :=
  {| node_id := id; node_type := "funnel"; position := {| x := 0; y := 0 |};
     data := {| label := lbl; type := t;
                buttonLabel := tpl_buttonLabel (NODE_TEMPLATES t);
                icon := tpl_icon (NODE_TEMPLATES t) |} |}.

Definition mkEdge (id src tgt : string) : Edge :=
  {| edge_id := id; source := src; target := tgt;
     sourceHandle := None; targetHandle := None;
     edge_type := Some "smoothstep"; animated := true;
     markerEnd := Some ArrowClosed |}.

Definition mkConnection (src tgt : string) : Connection :=
  {| conn_source := src; conn_target := tgt;
     conn_sourceHandle := None; conn_targetHandle := None |}.

Definition origin : XYPosition := {| x := 0; y := 0 |}.

Definition emptyState : AppState := initialState None.

(** Two upsell drops within the same millisecond. *)
Definition sameMillisecond : list Event :=
  [Drop (Some upsell) (Some origin) 1000; Drop (Some upsell) (Some origin) 1000].

(** A document whose two nodes carry one id. *)
Definition twinDocument : Parsed :=
  ParsedValue
    (IsArray [mkNode "upsell-7" upsell "Upsell 1"; mkNode "upsell-7" upsell "Upsell 2"])
    (IsArray []).

(** Drops at different times, or of different types, around a deletion. *)
Definition distinctDrops : list Event :=
  [Drop (Some upsell) (Some origin) 1000;
   Drop (Some upsell) (Some origin) 1001;
   DeleteNodes [mkNode "upsell-1000" upsell "Upsell 1"];
   Drop (Some downsell) (Some origin) 1001;
   Connect (mkConnection "upsell-1001" "downsell-1001")].

(** Upsell counters at the last integer before the doubles thin out, and
    one before it. *)
Definition countersAt (c : Z) : AppState :=
  {| nodes := []; edges := []; counters := <["upsell" := c]> ∅ |}.

Definition atLimit : AppState := countersAt (2 ^ 53).

Definition belowLimit : AppState := countersAt (2 ^ 53 - 1).

Definition twoUpsells : list Event :=
  [Drop (Some upsell) (Some origin) 1000; Drop (Some upsell) (Some origin) 1001].

Definition sampleProps : Props :=
  ([mkNode "salesPage-1" salesPage "Sales Page"], []).

Definition sampleState (c : gmap string Z) : AppState :=
  {| nodes := fst sampleProps; edges := snd sampleProps; counters := c |}.

(** Sales page, upsell and thank-you page in a row. *)
Definition funnelState : AppState :=
  {| nodes := [mkNode "salesPage-1" salesPage "Sales Page";
               mkNode "upsell-2" upsell "Upsell 1";
               mkNode "thankYou-3" thankYou "Thank You"];
     edges := [mkEdge "e1" "salesPage-1" "upsell-2";
               mkEdge "e2" "upsell-2" "thankYou-3"];
     counters := <["upsell" := 1]> (<["downsell" := 0]> ∅) |}.

(** ** The other components and callbacks

    [FunnelNode] and [Palette] (the two sources whose file names are not
    recorded, imported by App.tsx as ./components/FunnelNode and
    ./components/Palette), and the callbacks of App.tsx met so far only
    through their callers. *)

(** What [FunnelNode] renders of a node: the border and badge colour, the
    selection ring, the header icon, the heading, the badge text, the
    button preview, and which of the two handles are there. *)
Record FunnelNodeView : Set := {
  view_borderColor : string;
  view_ring : bool;
  view_ariaLabel : string;
  view_icon : string;
  view_heading : string;
  view_badge : string;
  view_buttonText : string;
  view_buttonAriaLabel : string;
  view_inputHandle : bool;
  view_outputHandle : bool;
}.

Definition FunnelNode (nodeData : FunnelNodeData) (selected : bool) : FunnelNodeView :=
  let template := NODE_TEMPLATES (type nodeData) in
  let isThankYou := bool_decide (type nodeData = thankYou) in
  {| view_borderColor := tpl_color template;
     view_ring := selected;
     view_ariaLabel := label nodeData +:+ " node";
     view_icon := tpl_icon template;
     view_heading := label nodeData;
     view_badge := tpl_label template;
     view_buttonText := buttonLabel nodeData;
     view_buttonAriaLabel := "Button preview: " +:+ buttonLabel nodeData;
     view_inputHandle := true;
     view_outputHandle := negb isThankYou |}.

(** The minimap's [nodeColor]: [NODE_TEMPLATES[data.type]?.color || '#999'],
    on a node whose type is one of the five. *)
Definition nodeColor (node : Node) : string :=
  let color := tpl_color (NODE_TEMPLATES (type (data node))) in
  if bool_decide (color = EmptyString) then "#999" else color.

(** [Object.values(NODE_TEMPLATES)], in the order of the keys. *)
Definition paletteItems : list NodeTemplate :=
  NODE_TEMPLATES <$> [salesPage; orderPage; upsell; downsell; thankYou].

(** The drag payload, [event.dataTransfer]: data by format.  [getData]
    gives the empty string for a format that was never set. *)
Definition setData (format value : string) (dataTransfer : gmap string string)
    : gmap string string :=
  <[format := value]> dataTransfer.

Definition getData (format : string) (dataTransfer : gmap string string) : string :=
  default EmptyString (dataTransfer !! format).

(** [onDragStart] of a palette item; its [effectAllowed] plays no part
    in what the drop reads. *)
Definition onDragStart (nodeType : NodeType) (dataTransfer : gmap string string)
    : gmap string string :=
  setData "application/reactflow" (typeName nodeType) dataTransfer.

(** [onAddNode?.(template.type)]: the click on a palette item, and its
    [onKeyDown] for Enter and the space bar. *)
Definition paletteClick {S : Type} (onAddNode : option (NodeType → S → S))
    (t : NodeType) (s : S) : S :=
  match onAddNode with
  | Some add => add t s
  | None => s
  end.

Definition paletteKeyDown {S : Type} (onAddNode : option (NodeType → S → S))
    (key : string) (t : NodeType) (s : S) : S :=
  if bool_decide (key = "Enter") || bool_decide (key = " ")
  then paletteClick onAddNode t s
  else s.

(** The [onAddNode] that App.tsx gives its palette:
    [<Palette onExport={handleExport} onImport={handleImport} />] has
    none. *)
Definition appOnAddNode : option (NodeType → AppState → AppState) := None.

(** ** Further notions for the properties below *)

(** A node that validation has nothing to say about. *)
Definition wellConnected (edges : list Edge) (n : Node) : Prop :=
  match type (data n) with
  | salesPage => outDegree edges n = 1%nat
  | thankYou => hasIncoming edges n = true
  | _ => hasIncoming edges n = true ∧ hasOutgoing edges n = true
  end.

#[global] Instance wellConnected_dec edges n : Decision (wellConnected edges n).
Proof. unfold wellConnected. destruct (type (data n)); apply _. Defined.

(** The issue of a node that no edge touches. *)
Definition isolatedIssue (n : Node) : ValidationIssue :=
  match type (data n) with
  | salesPage => noOutgoingWarning n
  | thankYou => noIncomingWarning n
  | _ => orphanError n
  end.

(** The two ends of an edge, all that validation reads of it. *)
Definition endpoints (e : Edge) : string * string := (source e, target e).

(** How many drops of a run add a node of type [t]. *)
Definition dropCount (t : NodeType) (evs : list Event) : nat :=
  length (filter (λ k, fst k = t) (dropKeys evs)).

(** No edge starts at the id of a thank-you page. *)
Definition noTerminalSource (st : AppState) : Prop :=
  Forall (λ e, Forall (λ n, node_id n = source e → type (data n) ≠ thankYou)
                 (nodes st))
    (edges st).

#[global] Instance noTerminalSource_dec st : Decision (noTerminalSource st).
Proof. unfold noTerminalSource. apply _. Defined.

(** Distinct node ids, no dangling edge, no edge out of a thank-you page. *)
Definition wellFormed (st : AppState) : Prop :=
  NoDup (nodeIds st) ∧ noDangling st ∧ noTerminalSource st.

#[global] Instance wellFormed_dec st : Decision (wellFormed st).
Proof. unfold wellFormed. apply _. Defined.

(** What the rendering library and the clock are relied on for: a drop
    lands on an id that is free, a connection joins two nodes of the
    canvas, and nothing is imported. *)
Definition admissibleEvent (ev : Event) (st : AppState) : Prop :=
  match ev with
  | Drop (Some t) (Some _) now => newNodeId t now ∉ nodeIds st
  | Drop _ _ _ => True
  | Connect c => conn_source c ∈ nodeIds st ∧ conn_target c ∈ nodeIds st
  | DeleteNodes _ => True
  | RemoveEdge _ => True
  | Import _ _ => False
  end.

#[global] Instance admissibleEvent_dec ev st : Decision (admissibleEvent ev st).
Proof.
  destruct ev as [[t|] [pos|] now| | | |]; simpl; apply _.
Defined.

Section Admissible.
Variable addEdge : EdgeParams → list Edge → list Edge.

Fixpoint admissible (evs : list Event) (st : AppState) : Prop :=
  match evs with
  | [] => True
  | ev :: evs => admissibleEvent ev st ∧ admissible evs (handle addEdge ev st)
  end.

#[global] Instance admissible_dec evs st : Decision (admissible evs st).
Proof. revert st. induction evs as [|ev evs IH]; intros st; simpl; apply _. Defined.
End Admissible.

(** The labels on the canvas that belong to nodes of one type. *)
Definition canvasLabels (t : NodeType) (st : AppState) : list string :=
  (λ n, label (data n)) <$> filter (λ n, type (data n) = t) (nodes st).

(** A connect between existing nodes after some drops and a deletion. *)
Definition smallSession : list Event :=
  [Drop (Some salesPage) (Some origin) 1000;
   Drop (Some upsell) (Some origin) 1001;
   Drop (Some thankYou) (Some origin) 1002;
   Connect (mkConnection "salesPage-1000" "upsell-1001");
   Connect (mkConnection "upsell-1001" "thankYou-1002");
   Drop (Some upsell) (Some origin) 1003;
   DeleteNodes [mkNode "upsell-1001" upsell "Upsell 1"];
   RemoveEdge "0"].

(** * Proofs *)

(** Closes a decidable goal about concrete data by evaluating its decision
    procedure. *)
Ltac by_evaluation :=
  match goal with
  | |- ?P => apply (bool_decide_unpack P); vm_compute; exact I
  end.

(** ** Validation *)

Lemma forEach_emit {A B : Type} (emit : A → list B) (body : A → list B → list B)
    (arr : list A) (acc : list B) :
  (∀ a acc, body a acc = acc ++ emit a) →
  forEach arr body acc = acc ++ (arr ≫= emit).
Proof.
  intros Hbody. unfold forEach. revert acc.
  induction arr as [|a arr IH]; intros acc; simpl.
  - by rewrite app_nil_r.
  - rewrite IH, Hbody. by rewrite <- app_assoc.
Qed.

Lemma checkNode_emit edges n problems :
  checkNode edges n problems = problems ++ perNodeIssues_spec edges n.
Proof.
  unfold checkNode, perNodeIssues_spec, push.
  destruct (type (data n)), (hasIncoming edges n), (hasOutgoing edges n);
    simpl; by rewrite ?app_nil_r.
Qed.

Lemma checkSalesPage_emit edges sp problems :
  checkSalesPage edges sp problems
  = problems ++ (if decide (1 < outDegree edges sp)%nat
                 then [fanOutWarning sp] else []).
Proof.
  unfold checkSalesPage, push, outDegree.
  destruct (decide (1 < length (filter (λ e, source e = node_id sp) edges))%nat)
    as [Hlt|Hge].
  - by rewrite bool_decide_eq_true_2.
  - rewrite bool_decide_eq_false_2 by done. by rewrite app_nil_r.
Qed.

Lemma fanOut_bind edges (nodes : list Node) :
  filter (λ n, type (data n) = salesPage) nodes
    ≫= (λ sp, if decide (1 < outDegree edges sp)%nat
              then [fanOutWarning sp] else [])
  = fanOutWarning <$> filter (fansOut edges) nodes.
Proof.
  induction nodes as [|n nodes IH]; [done|].
  rewrite !filter_cons. unfold fansOut at 1.
  destruct (decide (type (data n) = salesPage)) as [Hs|Hs].
  - rewrite bind_cons, IH.
    destruct (decide (1 < outDegree edges n)%nat) as [Hd|Hd].
    + by rewrite decide_True.
    + rewrite decide_False by (intros [_ ?]; done). done.
  - rewrite decide_False by (intros [? _]; done). done.
Qed.

Lemma validate_unfold nodes edges :
  validate nodes edges = validate_spec nodes edges.
Proof.
  unfold validate, validate_spec.
  rewrite (forEach_emit (perNodeIssues_spec edges) (checkNode edges))
    by apply checkNode_emit.
  rewrite (forEach_emit (λ sp, if decide (1 < outDegree edges sp)%nat
                               then [fanOutWarning sp] else [])
             (checkSalesPage edges))
    by apply checkSalesPage_emit.
  rewrite app_nil_l. by rewrite fanOut_bind.
Qed.

(** Spec 8, scenarios A to C. *)
Example validate_single_sales_page :
  validate [mkNode "salesPage-1" salesPage "Sales Page"] []
  = [ {| issue_type := warning;
         message := quoted "Sales Page" +:+ " has no outgoing connection";
         nodeId := Some "salesPage-1" |} ].
Proof. reflexivity. Qed.

Example validate_connected_funnel :
  validate
    [mkNode "salesPage-1" salesPage "Sales Page";
     mkNode "orderPage-2" orderPage "Order Page";
     mkNode "thankYou-3" thankYou "Thank You"]
    [mkEdge "e1" "salesPage-1" "orderPage-2";
     mkEdge "e2" "orderPage-2" "thankYou-3"]
  = [].
Proof. reflexivity. Qed.

Example validate_fan_out :
  validate
    [mkNode "salesPage-1" salesPage "Sales Page";
     mkNode "orderPage-2" orderPage "Order Page";
     mkNode "orderPage-3" orderPage "Order Page"]
    [mkEdge "e1" "salesPage-1" "orderPage-2";
     mkEdge "e2" "salesPage-1" "orderPage-3"]
  = [noOutgoingWarning (mkNode "orderPage-2" orderPage "Order Page");
     noOutgoingWarning (mkNode "orderPage-3" orderPage "Order Page");
     fanOutWarning (mkNode "salesPage-1" salesPage "Sales Page")].
Proof. reflexivity. Qed.

Lemma useMemo_value {D V : Type} `{EqDecision D} (compute : D → V) deps cell :
  (∀ d v, cell = Some (d, v) → v = compute d) →
  fst (useMemo compute deps cell) = compute deps
  ∧ ∀ d v, snd (useMemo compute deps cell) = Some (d, v) → v = compute d.
Proof.
  intros Hcell. unfold useMemo.
  destruct cell as [[d0 v0]|]; [|by split; [|intros ?? [= <- <-]]].
  case_bool_decide as Hd; simpl.
  - subst d0. split; [by apply Hcell|done].
  - split; [done|]. by intros ?? [= <- <-].
Qed.

Lemma ValidationPanel_sound props cell :
  memoSound cell →
  fst (fst (ValidationPanel props cell)) = validate (fst props) (snd props)
  ∧ memoSound (snd (ValidationPanel props cell)).
Proof.
  intros Hcell. unfold ValidationPanel.
  pose proof (useMemo_value (λ d, validate (fst d) (snd d)) props cell Hcell)
    as [Hv Hnext].
  by destruct (useMemo (λ d, validate (fst d) (snd d)) props cell).
Qed.

Lemma renders_sound history : memoSound (renders history).
Proof.
  unfold renders.
  assert (Hgen : ∀ cell, memoSound cell →
    memoSound (foldl (λ cell props, snd (ValidationPanel props cell)) cell history)).
  { induction history as [|props history IH]; intros cell Hcell; [done|].
    simpl. apply IH. by apply ValidationPanel_sound. }
  apply Hgen. by intros ??.
Qed.

Lemma perNodeIssues_nodeId edges n :
  Forall (λ i, nodeId i = Some (node_id n)) (perNodeIssues_spec edges n).
Proof.
  unfold perNodeIssues_spec.
  destruct (type (data n)), (hasIncoming edges n), (hasOutgoing edges n);
    repeat constructor.
Qed.

Lemma issuesFor_all id issues :
  Forall (λ i, nodeId i = Some id) issues → issuesFor id issues = issues.
Proof.
  unfold issuesFor. induction 1 as [|i issues Hi _ IH]; [done|].
  by rewrite filter_cons_True, IH.
Qed.

Lemma issuesFor_none id issues :
  Forall (λ i, nodeId i ≠ Some id) issues → issuesFor id issues = [].
Proof.
  unfold issuesFor. induction 1 as [|i issues Hi _ IH]; [done|].
  by rewrite filter_cons_False.
Qed.

Lemma issuesFor_perNode_other edges id m :
  node_id m ≠ id → issuesFor id (perNodeIssues_spec edges m) = [].
Proof.
  intros Hne. apply issuesFor_none.
  eapply Forall_impl; [apply perNodeIssues_nodeId|].
  intros i -> [= ?]. done.
Qed.

Lemma issuesFor_app id issues1 issues2 :
  issuesFor id (issues1 ++ issues2) = issuesFor id issues1 ++ issuesFor id issues2.
Proof. apply filter_app. Qed.

Lemma issuesFor_bind_absent edges id (nodes : list Node) :
  id ∉ node_id <$> nodes →
  issuesFor id (nodes ≫= perNodeIssues_spec edges) = [].
Proof.
  induction nodes as [|m nodes IH]; [done|].
  rewrite fmap_cons, not_elem_of_cons. intros [Hne Hnotin].
  rewrite bind_cons, issuesFor_app, IH by done.
  by rewrite issuesFor_perNode_other.
Qed.

Lemma issuesFor_bind_present edges n (nodes : list Node) :
  n ∈ nodes → NoDup (node_id <$> nodes) →
  issuesFor (node_id n) (nodes ≫= perNodeIssues_spec edges)
  = perNodeIssues_spec edges n.
Proof.
  induction nodes as [|m nodes IH]; [by intros ?%elem_of_nil|].
  rewrite fmap_cons, NoDup_cons. intros Hin [Hfresh Hnodup].
  rewrite bind_cons, issuesFor_app.
  apply elem_of_cons in Hin as [->|Hin].
  - rewrite issuesFor_all by apply perNodeIssues_nodeId.
    rewrite issuesFor_bind_absent by done. by rewrite app_nil_r.
  - rewrite IH by done. rewrite issuesFor_perNode_other; [done|].
    intros Heq. apply Hfresh. rewrite Heq. by apply list_elem_of_fmap_2.
Qed.

Lemma hasOutgoing_false_outDegree edges n :
  hasOutgoing edges n = false → outDegree edges n = 0%nat.
Proof.
  unfold hasOutgoing, outDegree. induction edges as [|e edges IH]; [done|].
  simpl. intros [He Hrest]%orb_false_iff.
  apply bool_decide_eq_false in He. rewrite filter_cons_False by done. auto.
Qed.

Lemma issuesFor_fanOut_none edges n (nodes : list Node) :
  hasOutgoing edges n = false →
  issuesFor (node_id n) (fanOutWarning <$> filter (fansOut edges) nodes) = [].
Proof.
  intros Hout. apply issuesFor_none, Forall_fmap, Forall_forall.
  intros m [[_ Hdeg] _]%list_elem_of_filter. simpl. intros [= Hid].
  pose proof (hasOutgoing_false_outDegree edges n Hout) as Hzero.
  unfold outDegree in *. rewrite Hid in Hdeg. lia.
Qed.

(** C4 — orphan priority.  A node of type orderPage, upsell or downsell
    with neither an incoming nor an outgoing edge gets exactly one issue
    from validation, the error saying it is orphaned: the per-node pass
    pushes that single issue for it, the returned sequence holds it at
    the node's place and no fan-out warning for the node, and in a graph
    whose node ids are distinct it is the only issue carrying the node's
    id.  Whatever the edges, the per-node pass pushes for such a node what
    the three cases give in the order orphan, no incoming, no outgoing,
    of which at most one applies. *)
Theorem orphan_reported_once (edges : list Edge) (n : Node) :
  type (data n) ∈ [orderPage; upsell; downsell] →
  hasIncoming edges n = false →
  hasOutgoing edges n = false →
  (∀ problems, checkNode edges n problems = problems ++ [orphanError n])
  ∧ (∀ before after,
       validate (before ++ n :: after) edges
       = ((before ≫= perNodeIssues_spec edges)
          ++ [orphanError n]
          ++ (after ≫= perNodeIssues_spec edges))
         ++ (fanOutWarning <$> filter (fansOut edges) (before ++ after)))
  ∧ (∀ nodes : list Node,
       n ∈ nodes → NoDup (node_id <$> nodes) →
       issuesFor (node_id n) (validate nodes edges) = [orphanError n])
  ∧ (∀ edges' problems,
       checkNode edges' n problems = problems ++ middleIssues_spec edges' n
       ∧ (length (middleIssues_spec edges' n) ≤ 1)%nat).
Proof.
  intros Hty Hinc Hout.
  assert (Hmid : ∀ edges', perNodeIssues_spec edges' n = middleIssues_spec edges' n).
  { intros edges'. unfold perNodeIssues_spec, middleIssues_spec.
    set_unfold in Hty.
    destruct Hty as [->|[->|[->|[]]]];
      by destruct (hasIncoming edges' n), (hasOutgoing edges' n). }
  assert (Horphan : perNodeIssues_spec edges n = [orphanError n]).
  { rewrite Hmid. unfold middleIssues_spec. by rewrite Hinc, Hout. }
  assert (Hfan : ¬ fansOut edges n).
  { intros [Hsales _]. revert Hty. rewrite Hsales.
    rewrite !elem_of_cons, elem_of_nil. by intros [?|[?|[?|[]]]]. }
  split; [|split; [|split]].
  - intros problems. by rewrite checkNode_emit, Horphan.
  - intros before after. rewrite validate_unfold. unfold validate_spec.
    rewrite bind_app, bind_cons, Horphan.
    by rewrite !filter_app, filter_cons_False.
  - intros nodes Hin Hnodup. rewrite validate_unfold. unfold validate_spec.
    rewrite issuesFor_app, issuesFor_bind_present, issuesFor_fanOut_none by done.
    by rewrite app_nil_r.
  - intros edges' problems. rewrite checkNode_emit, Hmid. split; [done|].
    unfold middleIssues_spec.
    destruct (hasIncoming edges' n), (hasOutgoing edges' n); simpl; lia.
Qed.

Lemma orphan_reported_once_witness :
  issuesFor "upsell-2"
    (validate
       [mkNode "salesPage-1" salesPage "Sales Page";
        mkNode "upsell-2" upsell "Upsell 1";
        mkNode "thankYou-3" thankYou "Thank You"]
       [mkEdge "e1" "salesPage-1" "thankYou-3"])
  = [orphanError (mkNode "upsell-2" upsell "Upsell 1")].
Proof.
  refine (proj1 (proj2 (proj2 (orphan_reported_once
            [mkEdge "e1" "salesPage-1" "thankYou-3"]
            (mkNode "upsell-2" upsell "Upsell 1") _ eq_refl eq_refl)))
            [mkNode "salesPage-1" salesPage "Sales Page";
             mkNode "upsell-2" upsell "Upsell 1";
             mkNode "thankYou-3" thankYou "Thank You"] _ _);
    by_evaluation.
Defined.

(** C6 — output ordering and completeness.  The sequence validation
    returns is, in full, the per-node issues of every node in the order
    of the node list, followed by one fan-out warning for each sales page
    with more than one outgoing edge, again in the order of the node
    list.  Every render hands this whole sequence on; only the view cuts
    it, to its first five items. *)
Theorem validate_complete_and_ordered (nodes : list Node) (edges : list Edge) :
  validate nodes edges
  = (nodes ≫= perNodeIssues_spec edges)
    ++ (fanOutWarning <$> filter (fansOut edges) nodes)
  ∧ (∀ history,
       fst (fst (ValidationPanel (nodes, edges) (renders history)))
       = validate nodes edges
       ∧ snd (fst (ValidationPanel (nodes, edges) (renders history)))
         = renderPanel nodes (validate nodes edges))
  ∧ shownIssues (renderPanel nodes (validate nodes edges))
    = (if decide (nodes = []) then [] else take 5 (validate nodes edges)).
Proof.
  split; [apply validate_unfold|split].
  - intros history.
    pose proof (ValidationPanel_sound (nodes, edges) (renders history)
                  (renders_sound history)) as [Hv _].
    split; [exact Hv|].
    unfold ValidationPanel in *.
    destruct (useMemo _ (nodes, edges) (renders history)) as [issues cell].
    simpl in *. by rewrite Hv.
  - unfold renderPanel.
    destruct nodes as [|n nodes]; [done|].
    rewrite bool_decide_eq_false_2 by done.
    rewrite decide_False by done.
    case_bool_decide as Hlen; [|done].
    apply length_zero_iff_nil in Hlen. by rewrite Hlen.
Qed.

(** C10 — validation determinism.  What the panel computes for a graph is
    [validate] of its node and edge lists and nothing else: after any two
    histories of earlier renders, the issues for the same graph are the
    same sequence, and the counters or any other part of the application
    state play no part. *)
Theorem validate_deterministic (history1 history2 : list Props)
    (st1 st2 : AppState) :
  nodes st1 = nodes st2 →
  edges st1 = edges st2 →
  fst (fst (ValidationPanel (nodes st1, edges st1) (renders history1)))
  = fst (fst (ValidationPanel (nodes st2, edges st2) (renders history2)))
  ∧ fst (fst (ValidationPanel (nodes st1, edges st1) (renders history1)))
    = validate (nodes st1) (edges st1).
Proof.
  intros Hn He.
  pose proof (ValidationPanel_sound (nodes st1, edges st1) (renders history1)
                (renders_sound history1)) as [Hv1 _].
  pose proof (ValidationPanel_sound (nodes st2, edges st2) (renders history2)
                (renders_sound history2)) as [Hv2 _].
  split; [|exact Hv1].
  rewrite Hv1, Hv2. simpl. by rewrite Hn, He.
Qed.

Lemma validate_deterministic_witness :
  fst (fst (ValidationPanel sampleProps (renders [])))
  = fst (fst (ValidationPanel sampleProps
                (renders [sampleProps; ([], []); sampleProps]))).
Proof.
  exact (proj1 (validate_deterministic [] [sampleProps; ([], []); sampleProps]
                  (sampleState ∅) (sampleState (<["upsell" := 7]> ∅))
                  eq_refl eq_refl)).
Defined.

(** ** Deleting nodes *)

Lemma onNodesDelete_untouched deleted eds e :
  e ∈ onNodesDelete deleted eds ↔ e ∈ eds ∧ untouched (idSet deleted) e.
Proof. unfold onNodesDelete. rewrite list_elem_of_filter. tauto. Qed.

Lemma filter_none {A : Type} (P : A → Prop) `{∀ x, Decision (P x)} (l : list A) :
  (∀ x, x ∈ l → ¬ P x) → filter P l = [].
Proof.
  induction l as [|x l IH]; [done|]. intros Hl.
  rewrite filter_cons_False by (apply Hl; by left).
  apply IH. intros y Hy. apply Hl. by right.
Qed.

Lemma elem_of_idSet id (deleted : list Node) :
  id ∈ idSet deleted ↔ id ∈ node_id <$> deleted.
Proof. unfold idSet. apply elem_of_list_to_set. Qed.

Lemma untouched_ids deleted e :
  untouched (idSet deleted) e
  ↔ (source e ∉ node_id <$> deleted) ∧ (target e ∉ node_id <$> deleted).
Proof. unfold untouched. by rewrite !elem_of_idSet. Qed.

(** C1 — cascade deletion.  Deleting a list of nodes leaves, in one step,
    a state in which no edge has the id of a deleted node as its source or
    as its target, and no node carries such an id: an edge is kept
    exactly when neither of its ends is the id of a deleted node, the
    edges kept stay in their old order, and every edge with an end at a
    deleted node is gone. *)
Theorem deleteNodes_cascades (deleted : list Node) (st : AppState) :
  edges (deleteNodes deleted st)
  = filter (λ e, (source e ∉ node_id <$> deleted) ∧ (target e ∉ node_id <$> deleted))
      (edges st)
  ∧ Forall (λ e, Forall (λ n, source e ≠ node_id n ∧ target e ≠ node_id n) deleted)
      (edges (deleteNodes deleted st))
  ∧ filter (λ e, source e ∈ node_id <$> deleted ∨ target e ∈ node_id <$> deleted)
      (edges (deleteNodes deleted st))
    = []
  ∧ Forall (λ e, Forall (λ n, source e = node_id n ∨ target e = node_id n →
                              e ∉ edges (deleteNodes deleted st)) deleted)
      (edges st)
  ∧ Forall (λ n, node_id n ∉ node_id <$> deleted) (nodes (deleteNodes deleted st)).
Proof.
  assert (Hmem : ∀ e, e ∈ edges (deleteNodes deleted st)
                      ↔ e ∈ edges st ∧ (source e ∉ node_id <$> deleted)
                        ∧ (target e ∉ node_id <$> deleted)).
  { intros e. cbn. by rewrite onNodesDelete_untouched, untouched_ids. }
  split; [|split; [|split; [|split]]].
  - cbn. unfold onNodesDelete. apply list_filter_iff. intros e.
    apply untouched_ids.
  - apply Forall_forall. intros e (_ & Hs & Ht)%Hmem.
    apply Forall_forall. intros n Hn.
    split; intros Heq; [apply Hs|apply Ht]; rewrite Heq;
      by apply list_elem_of_fmap_2.
  - apply filter_none. intros e (_ & Hs & Ht)%Hmem [?|?]; done.
  - apply Forall_forall. intros e He. apply Forall_forall.
    intros n Hn Hend (_ & Hs & Ht)%Hmem.
    destruct Hend as [Heq|Heq]; [apply Hs|apply Ht]; rewrite Heq;
      by apply list_elem_of_fmap_2.
  - apply Forall_forall. intros n Hn. cbn in Hn. unfold removeNodes in Hn.
    apply list_elem_of_filter in Hn as [Hn _]. by rewrite <- elem_of_idSet.
Qed.

(** ** Connecting *)

Lemma find_unique_id (nds : list Node) (n : Node) :
  n ∈ nds → NoDup (node_id <$> nds) →
  List.find (λ m, bool_decide (node_id m = node_id n)) nds = Some n.
Proof.
  induction nds as [|m nds IH]; [by intros ?%elem_of_nil|].
  rewrite fmap_cons, NoDup_cons. intros Hin [Hfresh Hnodup]. simpl.
  apply elem_of_cons in Hin as [->|Hin].
  - by rewrite bool_decide_eq_true_2.
  - rewrite bool_decide_eq_false_2; [by apply IH|].
    intros Heq. apply Hfresh. rewrite Heq. by apply list_elem_of_fmap_2.
Qed.

Lemma onConnect_terminal addEdge (params : Connection) (st : AppState) (n : Node) :
  List.find (λ m, bool_decide (node_id m = conn_source params)) (nodes st) = Some n →
  type (data n) = thankYou →
  onConnect addEdge params st
  = (st, Some "Thank You pages cannot have outgoing connections").
Proof.
  intros Hfind Hty. unfold onConnect. rewrite Hfind. simpl. rewrite Hty.
  by rewrite bool_decide_eq_true_2.
Qed.

(** C2 — terminal-node rule.  When the node that [onConnect] looks up for
    the connection's source is a thank-you page, the connection is
    refused: the handler raises its notice and hands back the state it was
    given, with the same edges and so the same edge count, whatever
    [addEdge] would have done. *)
Theorem onConnect_rejects_thankYou (addEdge : EdgeParams → list Edge → list Edge)
    (params : Connection) (st : AppState) (n : Node) :
  List.find (λ m, bool_decide (node_id m = conn_source params)) (nodes st) = Some n →
  type (data n) = thankYou →
  fst (onConnect addEdge params st) = st
  ∧ snd (onConnect addEdge params st)
    = Some "Thank You pages cannot have outgoing connections"
  ∧ edges (fst (onConnect addEdge params st)) = edges st
  ∧ length (edges (fst (onConnect addEdge params st))) = length (edges st).
Proof.
  intros Hfind Hty. by rewrite (onConnect_terminal addEdge params st n).
Qed.

Lemma onConnect_rejects_thankYou_witness :
  fst (onConnect appendEdge (mkConnection "thankYou-3" "upsell-2") funnelState)
  = funnelState.
Proof.
  exact (proj1 (onConnect_rejects_thankYou appendEdge
                  (mkConnection "thankYou-3" "upsell-2") funnelState
                  (mkNode "thankYou-3" thankYou "Thank You")
                  eq_refl eq_refl)).
Defined.

(** In a graph whose node ids are distinct, the node looked up is the
    node that carries the id. *)
Lemma onConnect_rejects_thankYou_member addEdge (params : Connection)
    (st : AppState) (n : Node) :
  n ∈ nodes st → NoDup (nodeIds st) →
  node_id n = conn_source params → type (data n) = thankYou →
  onConnect addEdge params st
  = (st, Some "Thank You pages cannot have outgoing connections").
Proof.
  intros Hin Hnodup Hid Hty. apply (onConnect_terminal addEdge params st n); [|done].
  rewrite <- Hid. by apply find_unique_id.
Qed.

(** ** Importing *)

(** C3, as stated, fails: a document that has a [nodes] array and no
    [edges] key is not refused; its nodes replace the nodes in memory
    while the edges in memory stay. *)
Lemma handleImport_partial_overwrite :
  hasBothArrays
    (ParsedValue (IsArray [mkNode "orderPage-9" orderPage "Order Page"]) Missing)
  = false
  ∧ nodes (fst (handleImport
                  (Some (ParsedValue
                           (IsArray [mkNode "orderPage-9" orderPage "Order Page"])
                           Missing))
                  false funnelState))
    = [mkNode "orderPage-9" orderPage "Order Page"]
  ∧ nodes (fst (handleImport
                  (Some (ParsedValue
                           (IsArray [mkNode "orderPage-9" orderPage "Order Page"])
                           Missing))
                  false funnelState))
    ≠ nodes funnelState
  ∧ edges (fst (handleImport
                  (Some (ParsedValue
                           (IsArray [mkNode "orderPage-9" orderPage "Order Page"])
                           Missing))
                  false funnelState))
    = edges funnelState.
Proof. repeat split; try reflexivity. discriminate. Qed.

(** C3, amended — [handleImport] tests the two keys one by one.  The
    nodes in memory are replaced exactly when [nodes] is present and an
    array, and the edges in memory exactly when [edges] is; a collection
    whose key is absent or holds no array is kept, so a document with one
    good key replaces that collection alone.  This holds whether or not
    the write to storage that follows succeeds: when it fails the
    replacement stays and the notice is raised, when it succeeds there is
    no notice.  A text that does not parse, or parses to null, raises the
    notice and changes nothing; no file changes nothing; the counters are
    never touched. *)
Theorem handleImport_per_key (file : option Parsed) (storageFull : bool)
    (st : AppState) :
  counters (fst (handleImport file storageFull st)) = counters st
  ∧ match file with
    | Some (ParsedValue data_nodes data_edges) =>
        nodes (fst (handleImport file storageFull st))
        = match data_nodes with IsArray items => items | _ => nodes st end
        ∧ edges (fst (handleImport file storageFull st))
          = match data_edges with IsArray items => items | _ => edges st end
        ∧ snd (handleImport file storageFull st)
          = (if storageFull then Some "Invalid JSON file" else None)
    | Some _ =>
        fst (handleImport file storageFull st) = st
        ∧ snd (handleImport file storageFull st) = Some "Invalid JSON file"
    | None => handleImport file storageFull st = (st, None)
    end.
Proof.
  destruct file as [[| |data_nodes data_edges]|]; simpl; try done.
  by destruct data_nodes, data_edges, storageFull.
Qed.

(** ** Dropping a node *)

Lemma orZero_default (entry : option Z) : orZero entry = default 0 entry.
Proof. destruct entry as [n|]; [|done]. simpl. by case_bool_decide. Qed.

Lemma two53 : 2 ^ 53 = 9007199254740992.
Proof. reflexivity. Qed.

(** Up to 2^53 in size every integer is a double. *)
Lemma toDouble_exact z : - 2 ^ 53 < z ≤ 2 ^ 53 → toDouble z = z.
Proof.
  intros Hz. destruct (decide (z = 2 ^ 53)) as [->|Hne]; [by vm_compute|].
  unfold toDouble. rewrite bool_decide_eq_true_2; [done|].
  rewrite two53 in *. lia.
Qed.

Lemma nextCount_exact (entry : option Z) :
  - 2 ^ 53 ≤ default 0 entry < 2 ^ 53 →
  nextCount entry = default 0 entry + 1.
Proof.
  intros Hc. unfold nextCount, jsAdd. rewrite orZero_default.
  apply toDouble_exact. lia.
Qed.

Lemma jsNumberToString_exact v :
  - 2 ^ 53 ≤ v ≤ 2 ^ 53 → jsNumberToString v = pretty v.
Proof.
  intros Hv. unfold jsNumberToString. rewrite bool_decide_eq_true_2; [done|].
  rewrite two53 in *. lia.
Qed.

Lemma onDrop_repeatable (t : NodeType) position now st :
  t = upsell ∨ t = downsell →
  onDrop (Some t) (Some position) now st
  = {| nodes := nodes st
                ++ [newNode t position now
                      (tpl_label (NODE_TEMPLATES t) +:+ " "
                       +:+ jsNumberToString (nextCount (counters st !! typeName t)))];
       edges := edges st;
       counters := <[typeName t := nextCount (counters st !! typeName t)]>
                     (counters st) |}.
Proof.
  intros Ht. unfold onDrop.
  replace (bool_decide (t = upsell) || bool_decide (t = downsell)) with true
    by (by destruct Ht as [->| ->]).
  by rewrite lookup_insert_eq.
Qed.

Lemma onDrop_plain (t : NodeType) position now st :
  ¬ (t = upsell ∨ t = downsell) →
  onDrop (Some t) (Some position) now st
  = {| nodes := nodes st ++ [newNode t position now (tpl_label (NODE_TEMPLATES t))];
       edges := edges st;
       counters := counters st |}.
Proof.
  intros Ht. unfold onDrop.
  replace (bool_decide (t = upsell) || bool_decide (t = downsell)) with false;
    [done|].
  destruct t; try done; exfalso; apply Ht; auto.
Qed.

(** Below 2^53 the sum is exact and printed digit by digit. *)
Lemma onDrop_counted (t : NodeType) position now st :
  t = upsell ∨ t = downsell →
  - 2 ^ 53 ≤ default 0 (counters st !! typeName t) < 2 ^ 53 →
  onDrop (Some t) (Some position) now st
  = {| nodes := nodes st
                ++ [newNode t position now
                      (numberedLabel t (default 0 (counters st !! typeName t) + 1))];
       edges := edges st;
       counters := <[typeName t := default 0 (counters st !! typeName t) + 1]>
                     (counters st) |}.
Proof.
  intros Ht Hc. rewrite onDrop_repeatable by done.
  rewrite nextCount_exact by done.
  rewrite jsNumberToString_exact by lia. done.
Qed.

(** C9, as stated, fails: at 2^53 the sum [counter + 1] rounds back to
    2^53, so the drop of an upsell leaves the counter where it was. *)
Lemma onDrop_stalls_at_limit :
  counters atLimit !! "upsell" = Some 9007199254740992
  ∧ counters (onDrop (Some upsell) (Some origin) 1000 atLimit) !! "upsell"
    = Some 9007199254740992
  ∧ counters (onDrop (Some upsell) (Some origin) 1000 atLimit) = counters atLimit
  ∧ (λ n, label (data n)) <$> nodes (onDrop (Some upsell) (Some origin) 1000 atLimit)
    = ["Upsell 9007199254740992"].
Proof. repeat split; by_evaluation. Qed.

(** C9, amended — labels.  A drop that adds a node of type upsell or
    downsell, with that type's counter (a missing entry counting as 0)
    at least -2^53 and below 2^53, raises the counter by one and labels
    the node with the template label, a space and the new counter value
    in decimal digits; a drop of any other type labels the node with the
    template label as it is and leaves the counters as they were.  On a
    fresh session two upsell drops give "Upsell 1" and "Upsell 2". *)
Theorem onDrop_label (t : NodeType) (position : XYPosition) (now : Z)
    (st : AppState) :
  (t = upsell ∨ t = downsell →
   - 2 ^ 53 ≤ default 0 (counters st !! typeName t) < 2 ^ 53) →
  onDrop (Some t) (Some position) now st
  = (if bool_decide (t = upsell ∨ t = downsell)
     then
       {| nodes := nodes st
                   ++ [newNode t position now
                         (tpl_label (NODE_TEMPLATES t) +:+ " "
                          +:+ pretty (default 0 (counters st !! typeName t) + 1))];
          edges := edges st;
          counters := <[typeName t := default 0 (counters st !! typeName t) + 1]>
                        (counters st) |}
     else
       {| nodes := nodes st
                   ++ [newNode t position now (tpl_label (NODE_TEMPLATES t))];
          edges := edges st;
          counters := counters st |})
  ∧ (λ n, label (data n))
    <$> nodes (onDrop (Some upsell) (Some position) now
                 (onDrop (Some upsell) (Some position) now emptyState))
    = ["Upsell 1"; "Upsell 2"].
Proof.
  intros Hc. split.
  - case_bool_decide as Ht.
    + by rewrite onDrop_counted by auto.
    + by rewrite onDrop_plain.
  - by vm_compute.
Qed.

Lemma onDrop_label_witness :
  counters (onDrop (Some downsell) (Some origin) 1000 funnelState) !! "downsell"
  = Some 1.
Proof.
  assert (Hc : downsell = upsell ∨ downsell = downsell →
               - 2 ^ 53 ≤ default 0 (counters funnelState !! typeName downsell)
               < 2 ^ 53) by (intros _; by_evaluation).
  rewrite (proj1 (onDrop_label downsell origin 1000 funnelState Hc)).
  reflexivity.
Defined.

Example first_two_upsells :
  (λ n, label (data n))
  <$> nodes (onDrop (Some upsell) (Some origin) 1001
               (onDrop (Some upsell) (Some origin) 1000 emptyState))
  = ["Upsell 1"; "Upsell 2"].
Proof. reflexivity. Qed.

(** ** Counters and labels along a run *)

Arguments onDrop : simpl never.
Arguments suffixes : simpl never.

Lemma typeName_inj : Inj (=) (=) typeName.
Proof. intros [] []; simpl; intros Heq; try done; discriminate. Qed.

Lemma handleImport_counters file storageFull st :
  counters (fst (handleImport file storageFull st)) = counters st.
Proof. by destruct file as [[| |[] []]|], storageFull. Qed.

Lemma onDrop_counters_other t pos now st k :
  k ≠ typeName t →
  counters (onDrop (Some t) (Some pos) now st) !! k = counters st !! k.
Proof.
  intros Hk. destruct (decide (t = upsell ∨ t = downsell)) as [Ht|Ht].
  - rewrite onDrop_repeatable by done. cbn [counters].
    by rewrite lookup_insert_ne.
  - by rewrite onDrop_plain.
Qed.

Section Runs.
Variable addEdge : EdgeParams → list Edge → list Edge.

Lemma handle_counters_other ev st :
  (∀ t pos now, ev ≠ Drop (Some t) (Some pos) now) →
  counters (handle addEdge ev st) = counters st.
Proof.
  intros Hev.
  destruct ev as [payload position now|c|deleted|id|file storageFull]; simpl.
  - destruct payload as [t|], position as [pos|]; try done.
    by destruct (Hev t pos now).
  - unfold onConnect. by case_bool_decide.
  - done.
  - done.
  - apply handleImport_counters.
Qed.

Lemma dropped_repeatable t pos now st :
  t = upsell ∨ t = downsell →
  dropped addEdge (Drop (Some t) (Some pos) now) st
  = Some (newNode t pos now
            (tpl_label (NODE_TEMPLATES t) +:+ " "
             +:+ jsNumberToString (nextCount (counters st !! typeName t)))).
Proof.
  intros Ht. unfold dropped. simpl. rewrite onDrop_repeatable by done.
  simpl. apply last_snoc.
Qed.

Lemma dropped_plain t pos now st :
  ¬ (t = upsell ∨ t = downsell) →
  dropped addEdge (Drop (Some t) (Some pos) now) st
  = Some (newNode t pos now (tpl_label (NODE_TEMPLATES t))).
Proof.
  intros Ht. unfold dropped. simpl. rewrite onDrop_plain by done.
  simpl. apply last_snoc.
Qed.

Lemma dropped_type ev st n :
  dropped addEdge ev st = Some n →
  ∃ pos now, ev = Drop (Some (type (data n))) (Some pos) now
             ∧ node_id n = newNodeId (type (data n)) now.
Proof.
  destruct ev as [[t|] [pos|] now| | | |]; try done.
  destruct (decide (t = upsell ∨ t = downsell)) as [Ht|Ht].
  - rewrite dropped_repeatable by done. intros [= <-]. by exists pos, now.
  - rewrite dropped_plain by done. intros [= <-]. by exists pos, now.
Qed.

Lemma event_cases ev :
  (∃ t pos now, ev = Drop (Some t) (Some pos) now)
  ∨ (∀ t pos now, ev ≠ Drop (Some t) (Some pos) now).
Proof. destruct ev as [[t|] [pos|] now| | | |]; eauto 6. Qed.

Lemma dropped_Drop t pos now st :
  ∃ lbl, dropped addEdge (Drop (Some t) (Some pos) now) st
         = Some (newNode t pos now lbl)
         ∧ (lbl = tpl_label (NODE_TEMPLATES t)
            ∨ ∃ v, lbl = tpl_label (NODE_TEMPLATES t) +:+ " "
                         +:+ jsNumberToString v)
         ∧ (¬ (t = upsell ∨ t = downsell) → lbl = tpl_label (NODE_TEMPLATES t)).
Proof.
  destruct (decide (t = upsell ∨ t = downsell)) as [Ht|Ht].
  - eexists. rewrite dropped_repeatable by done. split; [done|]. split; [|done].
    right. by eexists.
  - eexists. rewrite dropped_plain by done. split; [done|]. split; [by left|done].
Qed.

Lemma created_cons_Drop t pos now evs st :
  ∃ lbl, created addEdge (Drop (Some t) (Some pos) now :: evs) st
         = newNode t pos now lbl
           :: created addEdge evs (handle addEdge (Drop (Some t) (Some pos) now) st)
         ∧ (lbl = tpl_label (NODE_TEMPLATES t)
            ∨ ∃ v, lbl = tpl_label (NODE_TEMPLATES t) +:+ " "
                         +:+ jsNumberToString v)
         ∧ (¬ (t = upsell ∨ t = downsell) → lbl = tpl_label (NODE_TEMPLATES t)).
Proof.
  destruct (dropped_Drop t pos now st) as (lbl & Hdrop & Hlbl).
  exists lbl. split; [|done]. cbn [created]. by rewrite Hdrop.
Qed.

Lemma created_cons_counted t pos now evs st :
  t = upsell ∨ t = downsell →
  - 2 ^ 53 ≤ default 0 (counters st !! typeName t) < 2 ^ 53 →
  created addEdge (Drop (Some t) (Some pos) now :: evs) st
  = newNode t pos now (numberedLabel t (default 0 (counters st !! typeName t) + 1))
    :: created addEdge evs (handle addEdge (Drop (Some t) (Some pos) now) st).
Proof.
  intros Ht Hc. cbn [created]. unfold dropped. cbn [handle].
  rewrite onDrop_counted by done. cbn [nodes]. by rewrite last_snoc.
Qed.

Lemma created_cons_other ev evs st :
  (∀ t pos now, ev ≠ Drop (Some t) (Some pos) now) →
  created addEdge (ev :: evs) st = created addEdge evs (handle addEdge ev st)
  ∧ dropKeys (ev :: evs) = dropKeys evs.
Proof.
  intros Hev. destruct ev as [[t|] [pos|] now| | | |]; try done.
  by destruct (Hev t pos now).
Qed.

Lemma run_cons ev evs st :
  run addEdge (ev :: evs) st = run addEdge evs (handle addEdge ev st).
Proof. done. Qed.

Lemma suffixes_S c n : suffixes c (S n) = (c + 1) :: suffixes (c + 1) n.
Proof.
  unfold suffixes. simpl. f_equal.
  rewrite <- (fmap_S_seq 1 n), <- list_fmap_compose.
  apply list_fmap_ext. intros _ k _. simpl. lia.
Qed.

Lemma suffixes_above c n : Forall (λ k, c < k) (suffixes c n).
Proof.
  unfold suffixes. apply Forall_fmap, Forall_forall.
  intros k Hk%elem_of_seq. simpl. lia.
Qed.

Lemma suffixes_sorted c n : StronglySorted Z.lt (suffixes c n).
Proof.
  revert c. induction n as [|n IH]; intros c; [constructor|].
  rewrite suffixes_S. constructor; [apply IH|apply suffixes_above].
Qed.

Lemma suffixes_NoDup c n : NoDup (suffixes c n).
Proof.
  unfold suffixes. apply NoDup_fmap_2; [|apply NoDup_seq]. intros ???; lia.
Qed.

Lemma numberedLabel_inj t : Inj (=) (=) (numberedLabel t).
Proof.
  intros k1 k2. unfold numberedLabel.
  intros Heq%String.app_inj%String.app_inj. by apply pretty_Z_inj in Heq.
Qed.

Lemma dropCount_cons_Drop t t' pos now evs :
  dropCount t (Drop (Some t') (Some pos) now :: evs)
  = ((if decide (t' = t) then 1 else 0) + dropCount t evs)%nat.
Proof.
  unfold dropCount. cbn [dropKeys]. rewrite filter_cons. cbn [fst].
  by destruct (decide (t' = t)).
Qed.

(** While the counter stays within 2^53, the labels of a numbered type
    continue it one by one. *)
Lemma labelsOf_numbered t evs st :
  t = upsell ∨ t = downsell →
  - 2 ^ 53 ≤ default 0 (counters st !! typeName t) →
  default 0 (counters st !! typeName t) + Z.of_nat (dropCount t evs) ≤ 2 ^ 53 →
  labelsOf addEdge t evs st
  = numberedLabel t
    <$> suffixes (default 0 (counters st !! typeName t)) (dropCount t evs).
Proof.
  intros Ht. unfold labelsOf. revert st.
  induction evs as [|ev evs IH]; intros st Hlo Hhi; [done|].
  destruct (event_cases ev) as [(t' & pos & now & ->)|Hev].
  - rewrite dropCount_cons_Drop in *.
    destruct (decide (t' = t)) as [->|Hne].
    + rewrite created_cons_counted by (done || lia).
      rewrite filter_cons_True by done.
      cbn [Nat.add]. rewrite suffixes_S, !fmap_cons. f_equal.
      rewrite IH; cbn [handle]; rewrite onDrop_counted by (done || lia);
        cbn [counters]; rewrite lookup_insert_eq; cbn [default from_option id];
        [done|lia|lia].
    + destruct (created_cons_Drop t' pos now evs st) as (lbl & -> & _).
      rewrite filter_cons_False by done. cbn [Nat.add] in *.
      rewrite IH; cbn [handle]; rewrite onDrop_counters_other
        by (by intros ?%typeName_inj); done.
  - destruct (created_cons_other ev evs st Hev) as [-> Hkeys].
    unfold dropCount in *. rewrite Hkeys in *.
    rewrite IH; rewrite handle_counters_other by done; done.
Qed.

Lemma labelsOf_length t evs st :
  length (labelsOf addEdge t evs st) = dropCount t evs.
Proof.
  unfold labelsOf. rewrite length_fmap. revert st.
  induction evs as [|ev evs IH]; intros st; [done|].
  destruct (event_cases ev) as [(t' & pos & now & ->)|Hev].
  - destruct (created_cons_Drop t' pos now evs st) as (lbl & -> & _).
    rewrite dropCount_cons_Drop, filter_cons. cbn [newNode data type].
    destruct (decide (t' = t)); cbn [length Nat.add]; by rewrite IH.
  - destruct (created_cons_other ev evs st Hev) as [-> Hkeys].
    unfold dropCount. rewrite Hkeys. apply IH.
Qed.

Lemma labelsOf_plain t evs st :
  ¬ (t = upsell ∨ t = downsell) →
  labelsOf addEdge t evs st
  = replicate (dropCount t evs) (tpl_label (NODE_TEMPLATES t)).
Proof.
  intros Ht. unfold labelsOf. revert st.
  induction evs as [|ev evs IH]; intros st; [done|].
  destruct (event_cases ev) as [(t' & pos & now & ->)|Hev].
  - destruct (created_cons_Drop t' pos now evs st) as (lbl & -> & _ & Hlbl).
    rewrite dropCount_cons_Drop, filter_cons. cbn [newNode data type].
    destruct (decide (t' = t)) as [->|]; [|apply IH].
    rewrite fmap_cons. cbn [Nat.add replicate newNode data label].
    by rewrite IH, Hlbl.
  - destruct (created_cons_other ev evs st Hev) as [-> Hkeys].
    unfold dropCount. rewrite Hkeys. apply IH.
Qed.

(** While the counter stays within 2^53 it counts the drops. *)
Lemma run_counter t evs st :
  t = upsell ∨ t = downsell →
  - 2 ^ 53 ≤ default 0 (counters st !! typeName t) →
  default 0 (counters st !! typeName t) + Z.of_nat (dropCount t evs) ≤ 2 ^ 53 →
  default 0 (counters (run addEdge evs st) !! typeName t)
  = default 0 (counters st !! typeName t) + Z.of_nat (dropCount t evs).
Proof.
  intros Ht. revert st.
  induction evs as [|ev evs IH]; intros st Hlo Hhi; [cbn; lia|].
  rewrite run_cons.
  destruct (event_cases ev) as [(t' & pos & now & ->)|Hev].
  - rewrite dropCount_cons_Drop in *.
    destruct (decide (t' = t)) as [->|Hne].
    + rewrite IH; cbn [handle]; rewrite onDrop_counted by (done || lia);
        cbn [counters]; rewrite lookup_insert_eq; cbn [default from_option id];
        lia.
    + cbn [Nat.add] in *.
      rewrite IH; cbn [handle]; rewrite onDrop_counters_other
        by (by intros ?%typeName_inj); done.
  - destruct (created_cons_other ev evs st Hev) as [_ Hkeys].
    unfold dropCount in *. rewrite Hkeys in *.
    rewrite IH; rewrite handle_counters_other by done; done.
Qed.

Lemma run_counter_other k evs st :
  k ≠ "upsell" → k ≠ "downsell" →
  counters (run addEdge evs st) !! k = counters st !! k.
Proof.
  intros Hu Hd. revert st.
  induction evs as [|ev evs IH]; intros st; [done|].
  rewrite run_cons, IH.
  destruct (event_cases ev) as [(t & pos & now & ->)|Hev].
  - cbn [handle]. destruct (decide (t = upsell ∨ t = downsell)) as [Ht|Ht].
    + apply onDrop_counters_other. by destruct Ht as [-> | ->].
    + by rewrite onDrop_plain.
  - by rewrite handle_counters_other.
Qed.

(** Only a drop of a numbered type that adds a node writes the counters. *)
Lemma handle_counters_cases ev st :
  counters (handle addEdge ev st) = counters st
  ∨ ∃ t pos now, ev = Drop (Some t) (Some pos) now ∧ (t = upsell ∨ t = downsell).
Proof.
  destruct (event_cases ev) as [(t & pos & now & ->)|Hev].
  - destruct (decide (t = upsell ∨ t = downsell)) as [Ht|Ht].
    + right. by exists t, pos, now.
    + left. cbn [handle]. by rewrite onDrop_plain.
  - left. by apply handle_counters_other.
Qed.
End Runs.

(** C5, as stated, fails: from an upsell counter of 2^53 - 1 the first
    upsell drop is numbered 2^53 and so is the second, since 2^53 + 1
    rounds back to 2^53; the label repeats and the counter stands. *)
Lemma labels_repeat_at_limit :
  labelsOf appendEdge upsell twoUpsells belowLimit
  = ["Upsell 9007199254740992"; "Upsell 9007199254740992"]
  ∧ ¬ NoDup (labelsOf appendEdge upsell twoUpsells belowLimit)
  ∧ counters (run appendEdge [Drop (Some upsell) (Some origin) 1000] belowLimit)
    = counters (run appendEdge twoUpsells belowLimit).
Proof. split; [by vm_compute|split; by_evaluation]. Qed.

(** C5, amended — counter monotonicity.  Along any run of events during
    which the upsell counter stays among the integers that are counted
    exactly, from -2^53 at the start to at most 2^53 at the end, the
    labels the upsell drops receive are "Upsell c+1", "Upsell c+2", ...
    for c the upsell counter at the start (a missing entry counting as
    0): their numbers rise strictly and no label repeats, whatever
    deletions, connections or imports come in between.  The counter ends
    at c plus the number of upsell drops that added a node; a deletion
    leaves the counters as they are, and so does every event other than
    a drop that adds an upsell or a downsell. *)
Theorem upsell_labels_strictly_increasing
    (addEdge : EdgeParams → list Edge → list Edge)
    (evs : list Event) (st : AppState) :
  - 2 ^ 53 ≤ default 0 (counters st !! "upsell") →
  default 0 (counters st !! "upsell") + Z.of_nat (dropCount upsell evs) ≤ 2 ^ 53 →
  labelsOf addEdge upsell evs st
  = (λ k, "Upsell " +:+ pretty k)
    <$> suffixes (default 0 (counters st !! "upsell")) (dropCount upsell evs)
  ∧ StronglySorted Z.lt
      (suffixes (default 0 (counters st !! "upsell")) (dropCount upsell evs))
  ∧ NoDup (labelsOf addEdge upsell evs st)
  ∧ default 0 (counters (run addEdge evs st) !! "upsell")
    = default 0 (counters st !! "upsell") + Z.of_nat (dropCount upsell evs)
  ∧ (∀ deleted st',
       counters (handle addEdge (DeleteNodes deleted) st') = counters st')
  ∧ (∀ ev st',
       counters (handle addEdge ev st') = counters st'
       ∨ ∃ t pos now, ev = Drop (Some t) (Some pos) now
                      ∧ (t = upsell ∨ t = downsell)).
Proof.
  intros Hlo Hhi.
  pose proof (labelsOf_numbered addEdge upsell evs st (or_introl eq_refl) Hlo Hhi)
    as Hlabels.
  split; [exact Hlabels|split; [apply suffixes_sorted|split; [|split; [|split]]]].
  - rewrite Hlabels. apply NoDup_fmap_2; [apply numberedLabel_inj|].
    apply suffixes_NoDup.
  - apply (run_counter addEdge upsell); auto.
  - done.
  - apply handle_counters_cases.
Qed.

Lemma upsell_labels_strictly_increasing_witness :
  labelsOf appendEdge upsell
    [Drop (Some upsell) (Some origin) 1000;
     Drop (Some upsell) (Some origin) 1001;
     DeleteNodes [mkNode "upsell-1001" upsell "Upsell 2"];
     Drop (Some downsell) (Some origin) 1002;
     Drop (Some upsell) (Some origin) 1003]
    emptyState
  = ["Upsell 1"; "Upsell 2"; "Upsell 3"].
Proof.
  refine (proj1 (upsell_labels_strictly_increasing appendEdge
            [Drop (Some upsell) (Some origin) 1000;
             Drop (Some upsell) (Some origin) 1001;
             DeleteNodes [mkNode "upsell-1001" upsell "Upsell 2"];
             Drop (Some downsell) (Some origin) 1002;
             Drop (Some upsell) (Some origin) 1003]
            emptyState _ _)); by_evaluation.
Defined.

(** Spec 8, scenario E. *)
Example delete_connected_upsell :
  edges (deleteNodes [mkNode "upsell-2" upsell "Upsell 1"] funnelState) = []
  ∧ (λ n, label (data n))
    <$> nodes (onDrop (Some upsell) (Some origin) 2000
                 (deleteNodes [mkNode "upsell-2" upsell "Upsell 1"] funnelState))
    = ["Sales Page"; "Thank You"; "Upsell 2"].
Proof. split; reflexivity. Qed.

Example labels_survive_deletion :
  labelsOf appendEdge upsell
    [Drop (Some upsell) (Some origin) 1000;
     Drop (Some upsell) (Some origin) 1001;
     DeleteNodes [mkNode "upsell-1001" upsell "Upsell 2"];
     Drop (Some downsell) (Some origin) 1002;
     Drop (Some upsell) (Some origin) 1003]
    emptyState
  = ["Upsell 1"; "Upsell 2"; "Upsell 3"].
Proof. reflexivity. Qed.

(** ** Edge endpoints *)

Lemma appendEdge_endpoints p eds e :
  e ∈ appendEdge p eds →
  e ∈ eds ∨ (source e = conn_source (params p) ∧ target e = conn_target (params p)).
Proof.
  unfold appendEdge. rewrite elem_of_app, list_elem_of_singleton.
  intros [?| ->]; [by left|by right].
Qed.

Lemma noDangling_deleteNodes deleted st :
  noDangling st → noDangling (deleteNodes deleted st).
Proof.
  unfold noDangling, nodeIds. rewrite !Forall_forall. intros Hst e He.
  simpl in *. apply onNodesDelete_untouched in He as [He [Hs Ht]].
  destruct (Hst e He) as [Hsrc Htgt]. unfold removeNodes.
  apply list_elem_of_fmap in Hsrc as (n & Hn & Hnin).
  apply list_elem_of_fmap in Htgt as (m & Hm & Hmin).
  split; apply list_elem_of_fmap.
  - exists n. split; [done|]. apply list_elem_of_filter. by rewrite <- Hn.
  - exists m. split; [done|]. apply list_elem_of_filter. by rewrite <- Hm.
Qed.

Lemma noDangling_removeEdge id st :
  noDangling st → noDangling (setEdges (removeEdge id (edges st)) st).
Proof.
  unfold noDangling, nodeIds, removeEdge. rewrite !Forall_forall.
  intros Hst e [_ He]%list_elem_of_filter. by apply Hst.
Qed.

Lemma noDangling_onConnect addEdge c st :
  (∀ p eds e, e ∈ addEdge p eds →
     e ∈ eds ∨ (source e = conn_source (params p)
                ∧ target e = conn_target (params p))) →
  conn_source c ∈ nodeIds st → conn_target c ∈ nodeIds st →
  noDangling st → noDangling (fst (onConnect addEdge c st)).
Proof.
  intros Hadd Hsrc Htgt Hst. unfold onConnect.
  case_bool_decide; [done|]. simpl.
  unfold noDangling, nodeIds in *. rewrite Forall_forall in *. simpl.
  intros e [He|[-> ->]]%Hadd; [by apply Hst|done].
Qed.

(** C7, as stated, fails: [onConnect] looks the source up only to test for
    a thank-you page and never looks the target up, so a connection to an
    id that no node carries is added and dangles. *)
Lemma onConnect_dangling :
  noDangling funnelState
  ∧ ¬ noDangling
        (fst (onConnect appendEdge (mkConnection "salesPage-1" "orderPage-404")
                funnelState)).
Proof. split; by_evaluation. Qed.

(** C7, amended — in a graph where every edge starts and ends at an
    existing node, deleting nodes and removing an edge keep it so, and so
    does connecting two ids that existing nodes carry ([onConnect] itself
    does not check that they do), for any [addEdge] that adds no edge
    other than one between the endpoints it is given. *)
Theorem mutations_keep_endpoints (addEdge : EdgeParams → list Edge → list Edge)
    (c : Connection) (st : AppState) :
  (∀ p eds e, e ∈ addEdge p eds →
     e ∈ eds ∨ (source e = conn_source (params p)
                ∧ target e = conn_target (params p))) →
  noDangling st →
  conn_source c ∈ nodeIds st →
  conn_target c ∈ nodeIds st →
  noDangling (fst (onConnect addEdge c st))
  ∧ (∀ deleted, noDangling (deleteNodes deleted st))
  ∧ (∀ id, noDangling (setEdges (removeEdge id (edges st)) st)).
Proof.
  intros Hadd Hst Hsrc Htgt. split; [|split].
  - by apply noDangling_onConnect.
  - intros deleted. by apply noDangling_deleteNodes.
  - intros id. by apply noDangling_removeEdge.
Qed.

Lemma mutations_keep_endpoints_witness :
  noDangling
    (fst (onConnect appendEdge (mkConnection "salesPage-1" "thankYou-3")
            funnelState)).
Proof.
  refine (proj1 (mutations_keep_endpoints appendEdge
                   (mkConnection "salesPage-1" "thankYou-3") funnelState
                   appendEdge_endpoints _ _ _)); by_evaluation.
Defined.

(** ** Node ids *)

Lemma newNodeId_inj t1 now1 t2 now2 :
  newNodeId t1 now1 = newNodeId t2 now2 → t1 = t2 ∧ now1 = now2.
Proof.
  unfold newNodeId.
  destruct t1, t2; cbn [typeName]; intros Heq;
    try (apply String.app_inj, String.app_inj, pretty_Z_inj in Heq; by subst);
    cbn in Heq; discriminate.
Qed.

Section Ids.
Variable addEdge : EdgeParams → list Edge → list Edge.

(** Apart from an import, a handler keeps the nodes it is given, or some
    of them, as they are, and adds at most the node it drops. *)
Lemma handle_nodes ev st n :
  isImport ev = false →
  n ∈ nodes (handle addEdge ev st) →
  n ∈ nodes st ∨ dropped addEdge ev st = Some n.
Proof.
  intros Hev. destruct ev as [[t|] [pos|] now|c|deleted|id|file];
    try done; try (by left).
  - unfold dropped, handle.
    destruct (decide (t = upsell ∨ t = downsell)) as [Ht|Ht].
    + rewrite onDrop_repeatable by done. cbn [nodes].
      rewrite last_snoc, elem_of_app, list_elem_of_singleton.
      intros [?| ->]; auto.
    + rewrite onDrop_plain by done. cbn [nodes].
      rewrite last_snoc, elem_of_app, list_elem_of_singleton.
      intros [?| ->]; auto.
  - simpl. unfold onConnect. case_bool_decide; by left.
  - simpl. unfold removeNodes. intros [_ ?]%list_elem_of_filter. by left.
Qed.

Lemma handle_nodeIds_NoDup ev st :
  isImport ev = false →
  (∀ n, dropped addEdge ev st = Some n → node_id n ∉ nodeIds st) →
  NoDup (nodeIds st) → NoDup (nodeIds (handle addEdge ev st)).
Proof.
  intros Hev Hfresh Hst. unfold nodeIds in *.
  destruct ev as [[t|] [pos|] now|c|deleted|id|file];
    [|exact Hst|exact Hst|exact Hst| | |exact Hst|done].
  - assert (Hsnoc : ∃ n, dropped addEdge (Drop (Some t) (Some pos) now) st = Some n
              ∧ nodes (handle addEdge (Drop (Some t) (Some pos) now) st)
                = nodes st ++ [n]).
    { unfold dropped, handle.
      destruct (decide (t = upsell ∨ t = downsell)) as [Ht|Ht].
      - rewrite onDrop_repeatable by done. cbn [nodes].
        rewrite last_snoc. eauto.
      - rewrite onDrop_plain by done. cbn [nodes]. rewrite last_snoc. eauto. }
    destruct Hsnoc as (n & Hn & ->). rewrite fmap_app, NoDup_app.
    split; [done|]. split; [|apply NoDup_singleton].
    intros id Hid ->%list_elem_of_singleton. by apply (Hfresh n).
  - simpl. unfold onConnect. by case_bool_decide.
  - simpl. unfold removeNodes.
    eapply sublist_NoDup; [exact Hst|].
    apply fmap_sublist, sublist_filter.
Qed.

Lemma run_nodeIds_NoDup evs st seen :
  forallb (λ ev, negb (isImport ev)) evs = true →
  NoDup (seen ++ dropKeys evs) →
  (∀ n, n ∈ nodes st → ∃ k, k ∈ seen ∧ node_id n = newNodeId (fst k) (snd k)) →
  NoDup (nodeIds st) →
  NoDup (nodeIds (run addEdge evs st)).
Proof.
  unfold run. revert st seen.
  induction evs as [|ev evs IH]; intros st seen Hevs Hkeys Hseen Hst; [done|].
  simpl in Hevs. apply andb_true_iff in Hevs as [Hev%negb_true_iff Hevs].
  simpl.
  destruct (dropped addEdge ev st) as [n|] eqn:Hdrop.
  - destruct (dropped_type addEdge ev st n Hdrop) as (pos & now & -> & Hid).
    simpl in Hkeys.
    apply (IH _ (seen ++ [(type (data n), now)])); [done|by rewrite <- app_assoc| |].
    + intros m Hm. apply handle_nodes in Hm as [Hm|Hm]; [| |done].
      * destruct (Hseen m Hm) as (k & Hk & Hmk). exists k.
        split; [|done]. apply elem_of_app. by left.
      * rewrite Hdrop in Hm. injection Hm as <-.
        exists (type (data n), now). split; [|done].
        apply elem_of_app. right. by left.
    + apply handle_nodeIds_NoDup; [done| |done].
      intros n' Hn' (m & Hm & Hmin)%list_elem_of_fmap.
      rewrite Hdrop in Hn'. injection Hn' as <-.
      destruct (Hseen m Hmin) as ([t' now'] & Hk & Hmk). simpl in Hmk.
      rewrite Hid, Hmk in Hm. apply newNodeId_inj in Hm as [<- <-].
      apply NoDup_app in Hkeys as (_ & Hdisj & _).
      apply (Hdisj _ Hk). by left.
  - apply (IH _ seen); [done| | |].
    + destruct ev as [[t|] [pos|] now| | | |]; try done.
      exfalso. revert Hdrop. unfold dropped, handle.
      destruct (decide (t = upsell ∨ t = downsell)) as [Ht|Ht].
      * rewrite onDrop_repeatable by done. cbn [nodes]. by rewrite last_snoc.
      * rewrite onDrop_plain by done. cbn [nodes]. by rewrite last_snoc.
    + intros m Hm. apply handle_nodes in Hm as [Hm|Hm]; [|congruence|done].
      by apply Hseen.
    + apply handle_nodeIds_NoDup; [done| |done]. intros n' Hn'. congruence.
Qed.
End Ids.

(** C8, as stated, fails: the id of a new node is its type and the
    millisecond clock, so two drops of one type at the same clock value
    give two nodes with the same id; and an import takes the ids of the
    document as they come. *)
Lemma same_millisecond_same_id :
  nodeIds (run appendEdge sameMillisecond emptyState)
  = ["upsell-1000"; "upsell-1000"]
  ∧ ¬ NoDup (nodeIds (run appendEdge sameMillisecond emptyState))
  ∧ ¬ NoDup (nodeIds (run appendEdge [Import (Some twinDocument) false] emptyState)).
Proof. split; [reflexivity|split; by_evaluation]. Qed.

(** C8, amended — a drop gives the new node the id made of its type, a
    dash and the clock value, and, apart from an import, no handler
    changes a node it keeps.  In every state reached from an empty canvas
    by drops, connections, deletions and edge removals in which no two
    drops share both type and clock value, all node ids are pairwise
    distinct. *)
Theorem node_ids_distinct (addEdge : EdgeParams → list Edge → list Edge)
    (evs : list Event) (st : AppState) :
  nodes st = [] →
  forallb (λ ev, negb (isImport ev)) evs = true →
  NoDup (dropKeys evs) →
  NoDup (nodeIds (run addEdge evs st))
  ∧ (∀ t pos now st',
       node_id <$> dropped addEdge (Drop (Some t) (Some pos) now) st'
       = Some (newNodeId t now))
  ∧ (∀ ev st',
       Forall (λ n, isImport ev = true
                    ∨ n ∈ nodes st' ∨ dropped addEdge ev st' = Some n)
         (nodes (handle addEdge ev st'))).
Proof.
  intros Hempty Hevs Hkeys. split; [|split].
  - apply (run_nodeIds_NoDup addEdge evs st []); [done|done| |].
    + rewrite Hempty. by intros n ?%elem_of_nil.
    + unfold nodeIds. rewrite Hempty. constructor.
  - intros t pos now st'.
    destruct (decide (t = upsell ∨ t = downsell)) as [Ht|Ht].
    + by rewrite dropped_repeatable.
    + by rewrite dropped_plain.
  - intros ev st'. apply Forall_forall. intros n Hn.
    destruct (isImport ev) eqn:Hev; [by left|right].
    by apply handle_nodes.
Qed.

Lemma node_ids_distinct_witness :
  NoDup (nodeIds (run appendEdge distinctDrops emptyState)).
Proof.
  refine (proj1 (node_ids_distinct appendEdge distinctDrops emptyState
                   eq_refl eq_refl _)).
  by_evaluation.
Defined.

(** * Further properties *)

(** ** What validation reports, and when it reports nothing *)

Lemma hasOutgoing_outDegree edges n :
  hasOutgoing edges n = bool_decide (0 < outDegree edges n)%nat.
Proof.
  unfold hasOutgoing, outDegree. induction edges as [|e edges IH]; [done|].
  cbn [existsb]. rewrite filter_cons, IH.
  destruct (decide (source e = node_id n)) as [He|He].
  - rewrite (bool_decide_eq_true_2 _ He). cbn [length orb].
    symmetry. apply bool_decide_eq_true_2. lia.
  - by rewrite (bool_decide_eq_false_2 _ He).
Qed.

Lemma hasIncoming_targets edges n :
  hasIncoming edges n = bool_decide (node_id n ∈ target <$> edges).
Proof.
  unfold hasIncoming. induction edges as [|e edges IH].
  - symmetry. apply bool_decide_eq_false_2. by intros ?%elem_of_nil.
  - cbn [existsb]. rewrite IH, fmap_cons.
    destruct (decide (target e = node_id n)) as [He|He].
    + rewrite (bool_decide_eq_true_2 _ He). cbn [orb]. symmetry.
      apply bool_decide_eq_true_2. rewrite He. by left.
    + rewrite (bool_decide_eq_false_2 _ He). cbn [orb].
      apply bool_decide_ext. rewrite elem_of_cons.
      split; [by right|]. intros [Heq|?]; [by destruct He|done].
Qed.

Lemma fansOut_hasOutgoing edges n : fansOut edges n → hasOutgoing edges n = true.
Proof.
  intros [_ Hdeg]. rewrite hasOutgoing_outDegree.
  apply bool_decide_eq_true_2. lia.
Qed.

Lemma perNode_or_fanOut edges n :
  (length (perNodeIssues_spec edges n)
   + length (filter (fansOut edges) [n]) ≤ 1)%nat.
Proof.
  rewrite filter_cons, filter_nil.
  destruct (decide (fansOut edges n)) as [Hfan|Hfan]; cbn [length].
  - pose proof (fansOut_hasOutgoing edges n Hfan) as Hout.
    destruct Hfan as [Hsales _].
    unfold perNodeIssues_spec. rewrite Hsales, Hout. simpl. lia.
  - unfold perNodeIssues_spec.
    destruct (type (data n)), (hasIncoming edges n), (hasOutgoing edges n);
      simpl; lia.
Qed.

(** X1 — at most one issue per node.  Whatever the edges, validation
    returns no more issues than there are nodes: a node gets at most one
    per-node issue, and a sales page that earns the fan-out warning has an
    outgoing edge and so no per-node issue. *)
Theorem validate_at_most_one_per_node (nodes : list Node) (edges : list Edge) :
  (length (validate nodes edges) ≤ length nodes)%nat.
Proof.
  rewrite validate_unfold. unfold validate_spec.
  rewrite length_app, length_fmap.
  induction nodes as [|n nodes IH]; [done|].
  rewrite bind_cons, length_app.
  change (n :: nodes) with ([n] ++ nodes). rewrite filter_app, !length_app.
  pose proof (perNode_or_fanOut edges n). cbn [length] in *. lia.
Qed.

Lemma perNodeIssues_cases edges n i :
  i ∈ perNodeIssues_spec edges n →
  (i = orphanError n
   ∧ hasIncoming edges n = false ∧ hasOutgoing edges n = false
   ∧ type (data n) ≠ salesPage ∧ type (data n) ≠ thankYou)
  ∨ (i = noIncomingWarning n ∧ hasIncoming edges n = false)
  ∨ (i = noOutgoingWarning n ∧ hasOutgoing edges n = false).
Proof.
  unfold perNodeIssues_spec.
  destruct (type (data n)) eqn:Hty, (hasIncoming edges n), (hasOutgoing edges n);
    rewrite ?list_elem_of_singleton, ?elem_of_nil; intros Hi;
    try done; subst i; auto 10.
Qed.

(** X2 — what an issue can be.  Every issue validation returns is attached
    to a node of the list and is one of four: the orphan error, only for
    a node that is neither sales page nor thank-you page and has no edge
    at all; the no-incoming or the no-outgoing warning, only for a node
    that lacks such an edge; or the fan-out warning, only for a sales
    page with more than one outgoing edge.  The orphan error is the only
    error. *)
Theorem validate_issue_kinds (nodes : list Node) (edges : list Edge) :
  Forall (λ i, ∃ n, n ∈ nodes ∧ nodeId i = Some (node_id n)
      ∧ ((i = orphanError n ∧ issue_type i = error
          ∧ hasIncoming edges n = false ∧ hasOutgoing edges n = false
          ∧ type (data n) ≠ salesPage ∧ type (data n) ≠ thankYou)
         ∨ (i = noIncomingWarning n ∧ issue_type i = warning
            ∧ hasIncoming edges n = false)
         ∨ (i = noOutgoingWarning n ∧ issue_type i = warning
            ∧ hasOutgoing edges n = false)
         ∨ (i = fanOutWarning n ∧ issue_type i = warning
            ∧ type (data n) = salesPage ∧ (1 < outDegree edges n)%nat)))
    (validate nodes edges).
Proof.
  rewrite validate_unfold. unfold validate_spec.
  apply Forall_forall. intros i [Hi|Hi]%elem_of_app.
  - apply list_elem_of_bind in Hi as (n & Hi & Hn). exists n.
    split; [done|].
    apply perNodeIssues_cases in Hi
      as [(-> & ? & ? & ? & ?)|[(-> & ?)|(-> & ?)]].
    + split; [done|]. by left.
    + split; [done|]. right. by left.
    + split; [done|]. right. right. by left.
  - apply list_elem_of_fmap in Hi as (n & -> & [[Hs Hd] Hn]%list_elem_of_filter).
    exists n. split; [done|]. split; [done|]. by do 3 right.
Qed.

Lemma perNode_clear_iff edges n :
  perNodeIssues_spec edges n = [] ∧ ¬ fansOut edges n ↔ wellConnected edges n.
Proof.
  unfold perNodeIssues_spec, wellConnected, fansOut.
  rewrite hasOutgoing_outDegree.
  destruct (type (data n)) eqn:Hty, (hasIncoming edges n);
    try case_bool_decide; intuition (try discriminate; try lia).
Qed.

Lemma validate_spec_nil_iff (nodes : list Node) edges :
  validate_spec nodes edges = []
  ↔ Forall (λ n, perNodeIssues_spec edges n = [] ∧ ¬ fansOut edges n) nodes.
Proof.
  unfold validate_spec. induction nodes as [|n nodes IH]; [done|].
  rewrite bind_cons, filter_cons, Forall_cons, <- IH, !app_nil.
  destruct (decide (fansOut edges n)) as [Hfan|Hfan].
  - rewrite fmap_cons. split; [by intros [_ ?]|by intros [[_ ?] _]].
  - tauto.
Qed.

(** X3 — when the funnel looks good.  Validation returns no issue exactly
    when every sales page has exactly one outgoing edge, every thank-you
    page has an incoming edge, and every other node has both an incoming
    and an outgoing edge. *)
Theorem validate_all_clear_iff (nodes : list Node) (edges : list Edge) :
  validate nodes edges = [] ↔ Forall (wellConnected edges) nodes.
Proof.
  rewrite validate_unfold, validate_spec_nil_iff.
  apply Forall_iff. intros n. apply perNode_clear_iff.
Qed.

Lemma outDegree_endpoints edges n :
  outDegree edges n
  = length (filter (λ p, fst p = node_id n) (endpoints <$> edges)).
Proof.
  unfold outDegree. induction edges as [|e edges IH]; [done|].
  rewrite fmap_cons, !filter_cons. cbn [endpoints fst].
  destruct (decide (source e = node_id n)); cbn [length]; by rewrite IH.
Qed.

Lemma hasIncoming_endpoints edges n :
  hasIncoming edges n = bool_decide (node_id n ∈ snd <$> (endpoints <$> edges)).
Proof. by rewrite hasIncoming_targets, <- list_fmap_compose. Qed.

Lemma validation_reads_endpoints edges1 edges2 n :
  endpoints <$> edges1 ≡ₚ endpoints <$> edges2 →
  hasIncoming edges1 n = hasIncoming edges2 n
  ∧ outDegree edges1 n = outDegree edges2 n.
Proof.
  intros Hperm. split.
  - rewrite !hasIncoming_endpoints. apply bool_decide_ext. by rewrite Hperm.
  - rewrite !outDegree_endpoints. by rewrite Hperm.
Qed.

(** X4 — only the endpoints of the edges count, not their order.  Two
    edge lists that hold the same source-target pairs the same number of
    times, in any order and whatever the edge ids, handles and
    decoration, get the same issues for the same nodes. *)
Theorem validate_edges_endpoints (nodes : list Node) (edges1 edges2 : list Edge) :
  endpoints <$> edges1 ≡ₚ endpoints <$> edges2 →
  validate nodes edges1 = validate nodes edges2.
Proof.
  intros Hperm. rewrite !validate_unfold. unfold validate_spec.
  assert (Hsame : ∀ n, hasIncoming edges1 n = hasIncoming edges2 n
                       ∧ hasOutgoing edges1 n = hasOutgoing edges2 n
                       ∧ outDegree edges1 n = outDegree edges2 n).
  { intros n.
    destruct (validation_reads_endpoints edges1 edges2 n Hperm) as [Hin Hdeg].
    by rewrite !hasOutgoing_outDegree, Hdeg. }
  f_equal.
  - apply list_bind_ext; [|done]. intros n. unfold perNodeIssues_spec.
    destruct (Hsame n) as (-> & -> & _). done.
  - f_equal. apply list_filter_iff. intros n. unfold fansOut.
    destruct (Hsame n) as (_ & _ & ->). done.
Qed.

Lemma validate_edges_endpoints_witness :
  validate (nodes funnelState)
    [mkEdge "e1" "salesPage-1" "upsell-2"; mkEdge "e2" "upsell-2" "thankYou-3"]
  = validate (nodes funnelState)
      [mkEdge "b" "upsell-2" "thankYou-3"; mkEdge "a" "salesPage-1" "upsell-2"].
Proof.
  apply (validate_edges_endpoints (nodes funnelState)
           [mkEdge "e1" "salesPage-1" "upsell-2"; mkEdge "e2" "upsell-2" "thankYou-3"]
           [mkEdge "b" "upsell-2" "thankYou-3"; mkEdge "a" "salesPage-1" "upsell-2"]).
  simpl. apply perm_swap.
Defined.

Lemma perNodeIssues_no_edges n : perNodeIssues_spec [] n = [isolatedIssue n].
Proof. unfold perNodeIssues_spec, isolatedIssue. by destruct (type (data n)). Qed.

(** X5 — the two empty inputs.  With no edges every node gets exactly one
    issue, in the order of the node list: the no-outgoing warning for a
    sales page, the no-incoming warning for a thank-you page, the orphan
    error for any other node.  With no nodes there is no issue, whatever
    edges are left over. *)
Theorem validate_empty_inputs (nodes : list Node) (edges : list Edge) :
  validate nodes [] = isolatedIssue <$> nodes
  ∧ length (validate nodes []) = length nodes
  ∧ validate [] edges = [].
Proof.
  assert (Hbare : validate nodes [] = isolatedIssue <$> nodes).
  { rewrite validate_unfold. unfold validate_spec.
    replace (filter (fansOut []) nodes) with (@nil Node).
    - rewrite app_nil_r. induction nodes as [|n nodes IH]; [done|].
      by rewrite bind_cons, perNodeIssues_no_edges, IH.
    - induction nodes as [|n nodes IH]; [done|].
      rewrite filter_cons_False; [done|]. intros [_ Hdeg]. cbn in Hdeg. lia. }
  split; [done|split; [|done]].
  by rewrite Hbare, length_fmap.
Qed.

(** X6 — the three faces of the panel.  The panel shows the start hint
    exactly when there is no node, the all-clear box exactly when there
    are nodes and no issue, and the issue list otherwise.  The list's
    heading counts all issues, its items are the first five, and the
    "+N more" line is there exactly when more than five issues exist and
    then counts the rest: items shown plus N is the heading count. *)
Theorem renderPanel_cases (nodes : list Node) (issues : list ValidationIssue) :
  match renderPanel nodes issues with
  | StartBuilding => nodes = []
  | LooksGood => nodes ≠ [] ∧ issues = []
  | IssueList heading shown more =>
      nodes ≠ [] ∧ issues ≠ []
      ∧ heading = length issues
      ∧ shown = take 5 issues
      ∧ (length shown + default 0 more)%nat = heading
      ∧ (length shown ≤ 5)%nat
      ∧ (is_Some more ↔ 5 < length issues)%nat
  end.
Proof.
  unfold renderPanel.
  case_bool_decide as Hnodes; [by apply length_zero_iff_nil|].
  assert (nodes ≠ []) by (by intros ->).
  case_bool_decide as Hissues; [by split; [|apply length_zero_iff_nil]|].
  assert (issues ≠ []) by (by intros ->).
  repeat (split; [done|]). rewrite length_take.
  case_bool_decide as Hmore; cbn [default from_option id].
  - split; [lia|]. split; [lia|]. split; [done|]. by eexists.
  - split; [lia|]. split; [lia|]. split; [by intros [??]|lia].
Qed.

(** ** Deleting in steps *)

Lemma untouched_union A B e :
  untouched (A ∪ B) e ↔ untouched A e ∧ untouched B e.
Proof. unfold untouched. rewrite !not_elem_of_union. tauto. Qed.

Lemma idSet_app d1 d2 : idSet (d1 ++ d2) = idSet d1 ∪ idSet d2.
Proof. unfold idSet. by rewrite fmap_app, list_to_set_app_L. Qed.

Lemma onNodesDelete_app d1 d2 eds :
  onNodesDelete d1 (onNodesDelete d2 eds) = onNodesDelete (d1 ++ d2) eds.
Proof.
  unfold onNodesDelete. rewrite list_filter_filter, idSet_app.
  apply list_filter_iff. intros e. by rewrite untouched_union.
Qed.

Lemma onNodesDelete_perm d1 d2 eds :
  onNodesDelete (d1 ++ d2) eds = onNodesDelete (d2 ++ d1) eds.
Proof.
  unfold onNodesDelete. rewrite !idSet_app.
  apply list_filter_iff. intros e. rewrite !untouched_union. tauto.
Qed.

(** X7 — deletions compose.  Cleaning the edges after deleting one group
    of nodes and then after another gives what cleaning after both at
    once gives, in either order; cleaning twice for the same nodes
    changes nothing more; deleting no node keeps every edge; and the
    edges kept are always some of the old edges in their old order. *)
Theorem onNodesDelete_compose (d1 d2 : list Node) (eds : list Edge) :
  onNodesDelete d1 (onNodesDelete d2 eds) = onNodesDelete (d1 ++ d2) eds
  ∧ onNodesDelete d1 (onNodesDelete d2 eds)
    = onNodesDelete d2 (onNodesDelete d1 eds)
  ∧ onNodesDelete d1 (onNodesDelete d1 eds) = onNodesDelete d1 eds
  ∧ onNodesDelete [] eds = eds
  ∧ onNodesDelete d1 eds `sublist_of` eds.
Proof.
  split; [apply onNodesDelete_app|split; [|split; [|split]]].
  - by rewrite !onNodesDelete_app, onNodesDelete_perm.
  - rewrite onNodesDelete_app. unfold onNodesDelete. rewrite idSet_app.
    apply list_filter_iff. intros e. rewrite untouched_union. tauto.
  - unfold onNodesDelete. induction eds as [|e eds IH]; [done|].
    rewrite filter_cons_True; [by rewrite IH|].
    unfold untouched, idSet. cbn. split; apply not_elem_of_empty.
  - apply sublist_filter.
Qed.


(** ** Connecting, again *)

Lemma find_id_Some (nds : list Node) id n :
  List.find (λ m, bool_decide (node_id m = id)) nds = Some n →
  n ∈ nds ∧ node_id n = id.
Proof.
  intros [Hin Hid]%find_some. split; [by apply list_elem_of_In|].
  by apply bool_decide_eq_true in Hid.
Qed.

Lemma onConnect_accepted addEdge c st :
  snd (onConnect addEdge c st) = None →
  fst (onConnect addEdge c st)
  = setEdges
      (addEdge {| params := c; ep_type := "smoothstep"; ep_animated := true;
                  ep_markerEnd := ArrowClosed |} (edges st)) st.
Proof. unfold onConnect. by case_bool_decide. Qed.

Lemma onConnect_rejected_iff addEdge c st :
  NoDup (nodeIds st) →
  is_Some (snd (onConnect addEdge c st))
  ↔ ∃ n, n ∈ nodes st ∧ node_id n = conn_source c ∧ type (data n) = thankYou.
Proof.
  intros Hnodup. split.
  - unfold onConnect. case_bool_decide as Hty; [|by intros [??]]. intros _.
    destruct (List.find _ (nodes st)) as [n|] eqn:Hfind; [|done].
    apply find_id_Some in Hfind as [Hin Hid]. exists n.
    injection Hty as Hty. done.
  - intros (n & Hin & Hid & Hty).
    rewrite (onConnect_rejects_thankYou_member addEdge c st n); [by eexists|done..].
Qed.

(** X9 — the connection rule, both ways.  In a graph with distinct node
    ids, [onConnect] refuses a connection exactly when the node carrying
    its source id is a thank-you page.  Every other connection, a
    self-loop, a second edge between the same nodes or one from an id no
    node carries included, goes to [addEdge] as it is, with the
    smoothstep type, the animation and the closed arrow; no alert is
    raised, and neither the nodes nor the counters change either way. *)
Theorem onConnect_rule (addEdge : EdgeParams → list Edge → list Edge)
    (c : Connection) (st : AppState) :
  NoDup (nodeIds st) →
  (snd (onConnect addEdge c st)
   = Some "Thank You pages cannot have outgoing connections"
   ↔ ∃ n, n ∈ nodes st ∧ node_id n = conn_source c ∧ type (data n) = thankYou)
  ∧ (snd (onConnect addEdge c st) = None
     ↔ ¬ ∃ n, n ∈ nodes st ∧ node_id n = conn_source c
              ∧ type (data n) = thankYou)
  ∧ (snd (onConnect addEdge c st) = None →
     edges (fst (onConnect addEdge c st))
     = addEdge {| params := c; ep_type := "smoothstep"; ep_animated := true;
                  ep_markerEnd := ArrowClosed |} (edges st))
  ∧ nodes (fst (onConnect addEdge c st)) = nodes st
  ∧ counters (fst (onConnect addEdge c st)) = counters st.
Proof.
  intros Hnodup.
  pose proof (onConnect_rejected_iff addEdge c st Hnodup) as Hiff.
  assert (Hcases : snd (onConnect addEdge c st)
                   = Some "Thank You pages cannot have outgoing connections"
                   ∨ snd (onConnect addEdge c st) = None).
  { unfold onConnect. case_bool_decide; auto. }
  split; [|split; [|split; [|split]]].
  - rewrite <- Hiff. split; [by intros ->; eexists|].
    intros [msg Hmsg]. destruct Hcases as [?|Hnone]; [done|congruence].
  - rewrite <- Hiff. split; [by intros -> [??]|].
    intros Hnot. destruct Hcases as [Hsome|?]; [|done].
    destruct Hnot. rewrite Hsome. by eexists.
  - intros Hnone. by rewrite onConnect_accepted.
  - unfold onConnect. by case_bool_decide.
  - unfold onConnect. by case_bool_decide.
Qed.

Lemma onConnect_rule_witness :
  edges (fst (onConnect appendEdge (mkConnection "upsell-2" "upsell-2")
                funnelState))
  = appendEdge
      {| params := mkConnection "upsell-2" "upsell-2"; ep_type := "smoothstep";
         ep_animated := true; ep_markerEnd := ArrowClosed |}
      (edges funnelState).
Proof.
  refine (proj1 (proj2 (proj2 (onConnect_rule appendEdge
            (mkConnection "upsell-2" "upsell-2") funnelState _))) eq_refl).
  by_evaluation.
Defined.

(** ** What a drop leaves alone *)

Lemma onDrop_cases payload position now st :
  (onDrop payload position now st = st
   ∧ (payload = None ∨ position = None))
  ∨ (∃ t pos lbl,
       payload = Some t ∧ position = Some pos
       ∧ nodes (onDrop payload position now st)
         = nodes st ++ [newNode t pos now lbl]
       ∧ edges (onDrop payload position now st) = edges st
       ∧ ∀ k, k ≠ typeName t →
              counters (onDrop payload position now st) !! k = counters st !! k).
Proof.
  destruct payload as [t|]; [|left; by split; [|left]].
  destruct position as [pos|]; [|left; by split; [|right]].
  right. destruct (decide (t = upsell ∨ t = downsell)) as [Ht|Ht].
  - eexists t, pos, _. split; [done|split; [done|]].
    split; [|split; [|by intros k; apply onDrop_counters_other]];
      by rewrite onDrop_repeatable.
  - exists t, pos, (tpl_label (NODE_TEMPLATES t)).
    rewrite onDrop_plain by done. done.
Qed.

(** X10 — what a drop leaves alone.  A drop never touches the edges and
    never removes, changes or reorders a node.  With a type and a canvas
    position it appends exactly one node, of that type, at that position,
    with the id made of type and clock, and changes no counter but that
    type's; with the type or the position missing it changes nothing at
    all, so no label number is used up. *)
Theorem onDrop_frame (payload : option NodeType) (position : option XYPosition)
    (now : Z) (st : AppState) :
  edges (onDrop payload position now st) = edges st
  ∧ nodes st `prefix_of` nodes (onDrop payload position now st)
  ∧ match payload, position with
    | Some t, Some pos =>
        (∃ lbl, nodes (onDrop payload position now st)
                = nodes st ++ [newNode t pos now lbl])
        ∧ (∀ k, k ≠ typeName t →
                counters (onDrop payload position now st) !! k
                = counters st !! k)
    | _, _ => onDrop payload position now st = st
    end.
Proof.
  destruct (onDrop_cases payload position now st)
    as [[Hsame Hmissing]|(t & pos & lbl & -> & -> & Hnodes & Hedges & Hcounters)].
  - rewrite Hsame. split; [done|split; [done|]].
    by destruct Hmissing as [-> | ->]; [|destruct payload].
  - split; [done|split; [|split; [by exists lbl|done]]].
    rewrite Hnodes. by apply prefix_app_r.
Qed.

(** ** The invariants of a session *)

Lemma noDangling_onDrop payload position now st :
  noDangling st → noDangling (onDrop payload position now st).
Proof.
  destruct (onDrop_cases payload position now st)
    as [[-> _]|(t & pos & lbl & _ & _ & Hnodes & Hedges & _)]; [done|].
  unfold noDangling, nodeIds. rewrite Hedges, Hnodes, fmap_app.
  intros Hst. eapply Forall_impl; [exact Hst|].
  intros e [Hs Ht]. split; apply elem_of_app; by left.
Qed.

Lemma noTerminalSource_sub st st' :
  (∀ e, e ∈ edges st' → e ∈ edges st) →
  (∀ n, n ∈ nodes st' → n ∈ nodes st) →
  noTerminalSource st → noTerminalSource st'.
Proof.
  unfold noTerminalSource. rewrite !Forall_forall.
  intros Hedges Hnodes Hst e He. apply Forall_forall. intros n Hn.
  specialize (Hst e (Hedges e He)). rewrite Forall_forall in Hst. auto.
Qed.

Section Invariants.
Variable addEdge : EdgeParams → list Edge → list Edge.
Hypothesis addEdge_endpoints :
  ∀ p eds e, e ∈ addEdge p eds →
    e ∈ eds ∨ (source e = conn_source (params p)
               ∧ target e = conn_target (params p)).

Lemma noTerminalSource_onDrop payload position now st :
  (∀ t pos, payload = Some t → position = Some pos →
            newNodeId t now ∉ nodeIds st) →
  noDangling st → noTerminalSource st →
  noTerminalSource (onDrop payload position now st).
Proof.
  intros Hfresh Hdangling Hst.
  destruct (onDrop_cases payload position now st)
    as [[-> _]|(t & pos & lbl & -> & -> & Hnodes & Hedges & _)]; [done|].
  unfold noTerminalSource, noDangling in *. rewrite Hedges, Hnodes.
  rewrite Forall_forall in *. intros e He.
  apply Forall_app. split; [by apply Hst|].
  apply Forall_singleton. cbn. intros Hid.
  destruct (Hfresh t pos eq_refl eq_refl). rewrite Hid.
  by apply Hdangling.
Qed.

Lemma noTerminalSource_onConnect c st :
  NoDup (nodeIds st) → noTerminalSource st →
  noTerminalSource (fst (onConnect addEdge c st)).
Proof.
  intros Hnodup Hst.
  destruct (snd (onConnect addEdge c st)) as [msg|] eqn:Hsnd.
  - assert (fst (onConnect addEdge c st) = st) as ->; [|done].
    revert Hsnd. unfold onConnect. by case_bool_decide.
  - rewrite onConnect_accepted by done.
    unfold noTerminalSource in *. cbn [setEdges nodes edges].
    rewrite Forall_forall in *.
    intros e [He|[Hsrc _]]%addEdge_endpoints; [by apply Hst|].
    cbn in Hsrc. apply Forall_forall. intros n Hn Hid Hty.
    assert (is_Some (snd (onConnect addEdge c st))) as [? Hsome]; [|congruence].
    apply onConnect_rejected_iff; [done|]. exists n. by rewrite Hid.
Qed.

Lemma handle_wellFormed ev st :
  admissibleEvent ev st → wellFormed st → wellFormed (handle addEdge ev st).
Proof.
  intros Hev (Hnodup & Hdangling & Hterminal).
  assert (Himport : isImport ev = false) by (by destruct ev).
  split; [|split].
  - apply handle_nodeIds_NoDup; [done| |done].
    intros n Hn. destruct (dropped_type addEdge ev st n Hn) as (pos & now & -> & ->).
    exact Hev.
  - destruct ev as [payload position now|c|deleted|id|file storageFull]; cbn [handle].
    + by apply noDangling_onDrop.
    + destruct Hev. by apply noDangling_onConnect.
    + by apply noDangling_deleteNodes.
    + by apply noDangling_removeEdge.
    + done.
  - destruct ev as [payload position now|c|deleted|id|file storageFull]; cbn [handle].
    + apply noTerminalSource_onDrop; [|done..].
      intros t pos -> ->. exact Hev.
    + by apply noTerminalSource_onConnect.
    + apply (noTerminalSource_sub st); [| |done]; cbn.
      * by intros e [? _]%onNodesDelete_untouched.
      * unfold removeNodes. by intros n [_ ?]%list_elem_of_filter.
    + apply (noTerminalSource_sub st); [| |done]; cbn; [|done].
      unfold removeEdge. by intros e [_ ?]%list_elem_of_filter.
    + done.
Qed.

Lemma run_wellFormed evs st :
  admissible addEdge evs st → wellFormed st → wellFormed (run addEdge evs st).
Proof.
  unfold run. revert st. induction evs as [|ev evs IH]; intros st; [done|].
  cbn. intros [Hev Hevs] Hst. apply IH; [done|]. by apply handle_wellFormed.
Qed.
End Invariants.

(** X11 — a session keeps the graph well formed.  Start from a graph with
    distinct node ids, no dangling edge and no edge out of a thank-you
    page, the empty canvas for one.  Let every drop land on an id no node
    carries, every connection join two nodes of the canvas as it is then,
    and nothing be imported.  Then after any number of drops,
    connections, node deletions and edge removals the node ids are still
    distinct, every edge still starts and ends at a node, and still no
    edge leaves a thank-you page, for any [addEdge] that adds no edge
    other than one between the endpoints it is given. *)
Theorem session_keeps_wellFormed (addEdge : EdgeParams → list Edge → list Edge)
    (evs : list Event) (st : AppState) :
  (∀ p eds e, e ∈ addEdge p eds →
     e ∈ eds ∨ (source e = conn_source (params p)
                ∧ target e = conn_target (params p))) →
  wellFormed st →
  admissible addEdge evs st →
  NoDup (nodeIds (run addEdge evs st))
  ∧ noDangling (run addEdge evs st)
  ∧ noTerminalSource (run addEdge evs st).
Proof. intros Hadd Hst Hevs. by apply run_wellFormed. Qed.

Lemma session_keeps_wellFormed_witness :
  NoDup (nodeIds (run appendEdge smallSession emptyState))
  ∧ noDangling (run appendEdge smallSession emptyState)
  ∧ noTerminalSource (run appendEdge smallSession emptyState).
Proof.
  refine (session_keeps_wellFormed appendEdge smallSession emptyState
            appendEdge_endpoints _ _); by_evaluation.
Defined.

(** ** Labels and counters, by the number of drops *)

Section Labels.
Variable addEdge : EdgeParams → list Edge → list Edge.

Lemma sublist_filter_mono {A : Type} (P : A → Prop) `{∀ x, Decision (P x)}
    (l1 l2 : list A) :
  l1 `sublist_of` l2 → filter P l1 `sublist_of` filter P l2.
Proof.
  induction 1 as [|x l1 l2 _ IH|x l1 l2 _ IH]; [done| |].
  - rewrite !filter_cons. destruct (decide (P x)); [by constructor|done].
  - rewrite filter_cons. destruct (decide (P x)); [by constructor|done].
Qed.

Lemma handle_nodes_sublist ev st :
  isImport ev = false →
  nodes (handle addEdge ev st)
  `sublist_of` nodes st ++ option_list (dropped addEdge ev st).
Proof.
  intros Hev. destruct (event_cases ev) as [(t & pos & now & ->)|Hother].
  - destruct (dropped_Drop addEdge t pos now st) as (lbl & Hdrop & _).
    rewrite Hdrop. cbn [handle option_list].
    destruct (onDrop_cases (Some t) (Some pos) now st)
      as [[_ [?|?]]|(? & ? & lbl' & [= <-] & [= <-] & Hnodes & _)]; [done..|].
    revert Hdrop. unfold dropped. cbn [handle]. rewrite Hnodes, last_snoc.
    by intros [= ->].
  - replace (dropped addEdge ev st) with (@None Node)
      by (destruct ev as [[t|] [pos|] now| | | |]; try done;
          by destruct (Hother t pos now)).
    rewrite app_nil_r.
    destruct ev as [[t|] [pos|] now|c|deleted|id|file storageFull]; try done.
    + by destruct (Hother t pos now).
    + cbn. unfold onConnect. by case_bool_decide.
    + cbn. apply sublist_filter.
Qed.

Lemma run_nodes_sublist evs st :
  forallb (λ ev, negb (isImport ev)) evs = true →
  nodes (run addEdge evs st) `sublist_of` nodes st ++ created addEdge evs st.
Proof.
  revert st. induction evs as [|ev evs IH]; intros st Hevs.
  - cbn. by rewrite app_nil_r.
  - cbn [forallb] in Hevs.
    apply andb_true_iff in Hevs as [Hev%negb_true_iff Hevs].
    rewrite run_cons. etrans; [by apply IH|].
    cbn [created]. rewrite app_assoc.
    apply sublist_app; [by apply handle_nodes_sublist|done].
Qed.
End Labels.

(** X12 — numbering by the drops of the type alone.  Along any run
    during which the upsell and the downsell counter stay within the
    integers counted exactly, from -2^53 at the start to at most 2^53 at
    the end, the upsell drops that add a node receive "Upsell c+1" up to
    "Upsell c+n" for n their number and c the upsell counter at the
    start (a missing entry counting as 0), and the downsell drops
    likewise from the downsell counter: connections, deletions, imports,
    drops that add nothing and drops of any other type, the other
    numbered type included, do not move the numbering. *)
Theorem numbered_labels_by_drops (addEdge : EdgeParams → list Edge → list Edge)
    (evs : list Event) (st : AppState) :
  - 2 ^ 53 ≤ default 0 (counters st !! "upsell") →
  default 0 (counters st !! "upsell") + Z.of_nat (dropCount upsell evs) ≤ 2 ^ 53 →
  - 2 ^ 53 ≤ default 0 (counters st !! "downsell") →
  default 0 (counters st !! "downsell") + Z.of_nat (dropCount downsell evs)
  ≤ 2 ^ 53 →
  labelsOf addEdge upsell evs st
  = (λ k, "Upsell " +:+ pretty k)
    <$> suffixes (default 0 (counters st !! "upsell")) (dropCount upsell evs)
  ∧ labelsOf addEdge downsell evs st
    = (λ k, "Downsell " +:+ pretty k)
      <$> suffixes (default 0 (counters st !! "downsell"))
            (dropCount downsell evs).
Proof.
  intros Hulo Huhi Hdlo Hdhi. split.
  - apply (labelsOf_numbered addEdge upsell); auto.
  - apply (labelsOf_numbered addEdge downsell); auto.
Qed.

Lemma numbered_labels_by_drops_witness :
  labelsOf appendEdge upsell smallSession funnelState = ["Upsell 2"; "Upsell 3"]
  ∧ labelsOf appendEdge downsell smallSession funnelState = [].
Proof.
  refine (numbered_labels_by_drops appendEdge smallSession funnelState _ _ _ _);
    by_evaluation.
Defined.

(** X13 — the types without a number.  Along any run every drop of a
    sales page, an order page or a thank-you page labels its node with
    the template label and nothing else, so all nodes of such a type
    get the same label, one per drop that adds a node. *)
Theorem plain_labels_repeat (addEdge : EdgeParams → list Edge → list Edge)
    (t : NodeType) (evs : list Event) (st : AppState) :
  t ≠ upsell → t ≠ downsell →
  labelsOf addEdge t evs st
  = replicate (dropCount t evs) (tpl_label (NODE_TEMPLATES t)).
Proof. intros Hu Hd. apply labelsOf_plain. by intros [?|?]. Qed.

Lemma plain_labels_repeat_witness :
  labelsOf appendEdge salesPage
    (Drop (Some salesPage) (Some origin) 999 :: smallSession) emptyState
  = ["Sales Page"; "Sales Page"].
Proof.
  exact (plain_labels_repeat appendEdge salesPage
           (Drop (Some salesPage) (Some origin) 999 :: smallSession) emptyState
           ltac:(discriminate) ltac:(discriminate)).
Defined.

(** X14 — what the counters count.  After any run during which the
    upsell and the downsell counter stay within the integers counted
    exactly, from -2^53 at the start to at most 2^53 at the end, the
    upsell counter has risen by the number of upsell drops that added a
    node and the downsell counter by the number of such downsell drops,
    however many of those nodes were deleted again.  Any other entry of
    the counters object is as it was, whatever the counters hold. *)
Theorem counters_count_drops (addEdge : EdgeParams → list Edge → list Edge)
    (evs : list Event) (st : AppState) :
  - 2 ^ 53 ≤ default 0 (counters st !! "upsell") →
  default 0 (counters st !! "upsell") + Z.of_nat (dropCount upsell evs) ≤ 2 ^ 53 →
  - 2 ^ 53 ≤ default 0 (counters st !! "downsell") →
  default 0 (counters st !! "downsell") + Z.of_nat (dropCount downsell evs)
  ≤ 2 ^ 53 →
  default 0 (counters (run addEdge evs st) !! "upsell")
  = default 0 (counters st !! "upsell") + Z.of_nat (dropCount upsell evs)
  ∧ default 0 (counters (run addEdge evs st) !! "downsell")
    = default 0 (counters st !! "downsell") + Z.of_nat (dropCount downsell evs)
  ∧ (∀ k, k ≠ "upsell" → k ≠ "downsell" →
          counters (run addEdge evs st) !! k = counters st !! k).
Proof.
  intros Hulo Huhi Hdlo Hdhi. split; [|split].
  - apply (run_counter addEdge upsell); auto.
  - apply (run_counter addEdge downsell); auto.
  - intros k. apply run_counter_other.
Qed.

Lemma counters_count_drops_witness :
  default 0 (counters (run appendEdge smallSession funnelState) !! "upsell") = 3
  ∧ default 0 (counters (run appendEdge smallSession funnelState) !! "downsell")
    = 0.
Proof.
  pose proof (counters_count_drops appendEdge smallSession funnelState
                ltac:(by_evaluation) ltac:(by_evaluation)
                ltac:(by_evaluation) ltac:(by_evaluation)) as (Hu & Hd & _).
  split; [exact Hu|exact Hd].
Defined.

Lemma canvasLabels_sublist addEdge t evs st :
  nodes st = [] →
  forallb (λ ev, negb (isImport ev)) evs = true →
  canvasLabels t (run addEdge evs st) `sublist_of` labelsOf addEdge t evs st.
Proof.
  intros Hempty Hevs. unfold canvasLabels, labelsOf.
  apply fmap_sublist, sublist_filter_mono.
  pose proof (run_nodes_sublist addEdge evs st Hevs) as Hsub.
  by rewrite Hempty in Hsub.
Qed.

(** X15 — no two numbered nodes on the canvas share a label.  On a canvas
    that started empty and saw no import, the nodes present are some of
    the nodes the drops created, unchanged and in the order of their
    creation; and as long as the upsell and the downsell counter stay
    within the integers counted exactly, from -2^53 at the start to at
    most 2^53 at the end, the upsell nodes among them carry pairwise
    different labels, and so do the downsell nodes. *)
Theorem canvas_labels_distinct (addEdge : EdgeParams → list Edge → list Edge)
    (evs : list Event) (st : AppState) :
  nodes st = [] →
  forallb (λ ev, negb (isImport ev)) evs = true →
  - 2 ^ 53 ≤ default 0 (counters st !! "upsell") →
  default 0 (counters st !! "upsell") + Z.of_nat (dropCount upsell evs) ≤ 2 ^ 53 →
  - 2 ^ 53 ≤ default 0 (counters st !! "downsell") →
  default 0 (counters st !! "downsell") + Z.of_nat (dropCount downsell evs)
  ≤ 2 ^ 53 →
  nodes (run addEdge evs st) `sublist_of` created addEdge evs st
  ∧ NoDup (canvasLabels upsell (run addEdge evs st))
  ∧ NoDup (canvasLabels downsell (run addEdge evs st)).
Proof.
  intros Hempty Hevs Hulo Huhi Hdlo Hdhi.
  assert (Hnumbered : ∀ t,
            t = upsell ∨ t = downsell →
            - 2 ^ 53 ≤ default 0 (counters st !! typeName t) →
            default 0 (counters st !! typeName t) + Z.of_nat (dropCount t evs)
            ≤ 2 ^ 53 →
            NoDup (canvasLabels t (run addEdge evs st))).
  { intros t Ht Hlo Hhi.
    eapply sublist_NoDup; [|by apply canvasLabels_sublist].
    rewrite labelsOf_numbered by done.
    apply NoDup_fmap_2; [apply numberedLabel_inj|apply suffixes_NoDup]. }
  split; [|split; apply Hnumbered; auto].
  pose proof (run_nodes_sublist addEdge evs st Hevs) as Hsub.
  by rewrite Hempty in Hsub.
Qed.

Lemma canvas_labels_distinct_witness :
  NoDup (canvasLabels upsell (run appendEdge smallSession emptyState)).
Proof.
  exact (proj1 (proj2 (canvas_labels_distinct appendEdge smallSession emptyState
                         eq_refl eq_refl
                         ltac:(by_evaluation) ltac:(by_evaluation)
                         ltac:(by_evaluation) ltac:(by_evaluation)))).
Defined.

Lemma dropped_counters addEdge ev st1 st2 :
  counters st1 = counters st2 →
  dropped addEdge ev st1 = dropped addEdge ev st2
  ∧ counters (handle addEdge ev st1) = counters (handle addEdge ev st2).
Proof.
  intros Hc. destruct (event_cases ev) as [(t & pos & now & ->)|Hev].
  - cbn [handle]. destruct (decide (t = upsell ∨ t = downsell)) as [Ht|Ht].
    + rewrite !dropped_repeatable, !onDrop_repeatable by done.
      cbn [counters]. by rewrite Hc.
    + by rewrite !dropped_plain, !onDrop_plain.
  - rewrite !handle_counters_other by done. split; [|done].
    destruct ev as [[t|] [pos|] now| | | |]; try done.
    by destruct (Hev t pos now).
Qed.

Lemma created_counters addEdge evs st1 st2 :
  counters st1 = counters st2 →
  created addEdge evs st1 = created addEdge evs st2.
Proof.
  revert st1 st2. induction evs as [|ev evs IH]; intros st1 st2 Hc; [done|].
  destruct (dropped_counters addEdge ev st1 st2 Hc) as [Hd Hc'].
  cbn [created]. rewrite Hd. f_equal. by apply IH.
Qed.

Lemma labelsOf_counters addEdge t evs st1 st2 :
  counters st1 = counters st2 →
  labelsOf addEdge t evs st1 = labelsOf addEdge t evs st2.
Proof.
  intros Hc. unfold labelsOf.
  by rewrite (created_counters addEdge evs st1 st2 Hc).
Qed.

(** X16 — labels follow the counters, not the canvas.  The labels a run
    hands out depend on the state it starts from through the counters
    alone: put any nodes and edges in place of the graph, by an import
    or by deleting nodes, and the same drops get the same labels.  So
    numbering is not restarted by clearing the canvas, and is not
    advanced past the labels an imported document already holds. *)
Theorem labels_follow_counters (addEdge : EdgeParams → list Edge → list Edge)
    (t : NodeType) (evs : list Event) (st : AppState) :
  (∀ nds eds,
     labelsOf addEdge t evs {| nodes := nds; edges := eds; counters := counters st |}
     = labelsOf addEdge t evs st)
  ∧ (∀ file storageFull,
       labelsOf addEdge t evs (fst (handleImport file storageFull st))
       = labelsOf addEdge t evs st)
  ∧ (∀ deleted,
       labelsOf addEdge t evs (deleteNodes deleted st)
       = labelsOf addEdge t evs st).
Proof.
  split; [|split].
  - intros nds eds. by apply labelsOf_counters.
  - intros file storageFull. apply labelsOf_counters, handleImport_counters.
  - intros deleted. by apply labelsOf_counters.
Qed.

(** ** Importing again *)

(** X18 — importing twice.  Importing the same file a second time, right
    after the first, with the storage write faring as it did the first
    time, changes nothing more and answers as the first time: the same
    notice for a file that does not parse or could not be stored, none
    otherwise. *)
Theorem handleImport_idempotent (file : option Parsed) (storageFull : bool)
    (st : AppState) :
  handleImport file storageFull (fst (handleImport file storageFull st))
  = handleImport file storageFull st.
Proof. by destruct file as [[| |[| |nds] [| |eds]]|], storageFull. Qed.

(** ** The node on the canvas and in the palette *)

Lemma same_id_same_node (nds : list Node) (n m : Node) :
  NoDup (node_id <$> nds) → n ∈ nds → m ∈ nds → node_id n = node_id m → n = m.
Proof.
  intros Hnodup Hn Hm Hid.
  pose proof (find_unique_id nds n Hn Hnodup) as Hfn.
  pose proof (find_unique_id nds m Hm Hnodup) as Hfm.
  rewrite Hid in Hfn. congruence.
Qed.

(** X19 — the output handle and the connection rule agree.  [FunnelNode]
    gives every node an input handle, and an output handle unless the
    node is a thank-you page; in a graph with distinct node ids the nodes
    that show an output handle are exactly those from which [onConnect]
    accepts a connection. *)
Theorem output_handle_iff_connectable
    (addEdge : EdgeParams → list Edge → list Edge)
    (c : Connection) (st : AppState) (n : Node) (selected : bool) :
  NoDup (nodeIds st) →
  n ∈ nodes st →
  conn_source c = node_id n →
  view_inputHandle (FunnelNode (data n) selected) = true
  ∧ (view_outputHandle (FunnelNode (data n) selected) = true
     ↔ snd (onConnect addEdge c st) = None).
Proof.
  intros Hnodup Hn Hsrc. split; [done|]. cbn [FunnelNode view_outputHandle].
  rewrite negb_true_iff, bool_decide_eq_false.
  pose proof (onConnect_rejected_iff addEdge c st Hnodup) as Hiff.
  split.
  - intros Hty. destruct (snd (onConnect addEdge c st)) as [msg|] eqn:Hsnd; [|done].
    destruct Hiff as [Hex _]. destruct (Hex (ltac:(by eexists))) as (m & Hm & Hid & Hmty).
    rewrite Hsrc in Hid.
    by rewrite (same_id_same_node (nodes st) n m Hnodup Hn Hm) in Hty.
  - intros Hnone Hty.
    destruct Hiff as [_ Hsome]. destruct Hsome as [msg Hmsg]; [|congruence].
    exists n. by rewrite Hsrc.
Qed.

Lemma output_handle_iff_connectable_witness :
  view_outputHandle (FunnelNode (data (mkNode "thankYou-3" thankYou "Thank You")) false)
  = true
  ↔ snd (onConnect appendEdge (mkConnection "thankYou-3" "salesPage-1") funnelState)
    = None.
Proof.
  refine (proj2 (output_handle_iff_connectable appendEdge
                   (mkConnection "thankYou-3" "salesPage-1") funnelState
                   (mkNode "thankYou-3" thankYou "Thank You") false _ _ eq_refl));
    by_evaluation.
Defined.

Lemma nodeColor_template n :
  nodeColor n = tpl_color (NODE_TEMPLATES (type (data n))).
Proof. unfold nodeColor. by destruct (type (data n)). Qed.

(** X20 — a dropped node wears its template.  Every node created by a
    drop whose payload is the name of one of the five node types, as the
    palette writes it, is a "funnel" node whose button text and icon are
    those of the template of its type, and whose label is the template
    label alone or followed by a space and a printed number.  So what
    [FunnelNode] draws from the template, the icon, the badge and the
    border colour, goes with what it draws from the node's data, and the
    minimap gives such a node the template colour, not the fallback
    grey. *)
Theorem created_nodes_match_templates
    (addEdge : EdgeParams → list Edge → list Edge)
    (evs : list Event) (st : AppState) (selected : bool) :
  Forall (λ n,
      (∃ t pos now, Drop (Some t) (Some pos) now ∈ evs
                    ∧ type (data n) = t ∧ node_id n = newNodeId t now)
      ∧ node_type n = "funnel"
      ∧ buttonLabel (data n) = tpl_buttonLabel (NODE_TEMPLATES (type (data n)))
      ∧ icon (data n) = tpl_icon (NODE_TEMPLATES (type (data n)))
      ∧ (label (data n) = tpl_label (NODE_TEMPLATES (type (data n)))
         ∨ ∃ v, label (data n)
                = tpl_label (NODE_TEMPLATES (type (data n))) +:+ " "
                  +:+ jsNumberToString v)
      ∧ view_icon (FunnelNode (data n) selected) = icon (data n)
      ∧ view_buttonText (FunnelNode (data n) selected)
        = tpl_buttonLabel (NODE_TEMPLATES (type (data n)))
      ∧ nodeColor n = view_borderColor (FunnelNode (data n) selected)
      ∧ nodeColor n ≠ "#999")
    (created addEdge evs st).
Proof.
  revert st. induction evs as [|ev evs IH]; intros st; [constructor|].
  destruct (event_cases ev) as [(t & pos & now & ->)|Hev].
  - destruct (created_cons_Drop addEdge t pos now evs st) as (lbl & -> & Hlbl & _).
    constructor.
    + split; [exists t, pos, now; split; [apply list_elem_of_here|done]|].
      rewrite nodeColor_template.
      cbn [newNode node_type data buttonLabel icon label type FunnelNode
           view_icon view_buttonText view_borderColor].
      repeat (split; [done|]). by destruct t.
    + eapply Forall_impl; [apply IH|]. cbn beta.
      intros n ((t' & pos' & now' & Hin & Hrest) & Hn).
      split; [|exact Hn]. exists t', pos', now'. split; [|done].
      by apply list_elem_of_further.
  - destruct (created_cons_other addEdge ev evs st Hev) as [-> _].
    eapply Forall_impl; [apply IH|]. cbn beta.
    intros n ((t' & pos' & now' & Hin & Hrest) & Hn).
    split; [|exact Hn]. exists t', pos', now'. split; [|done].
    by apply list_elem_of_further.
Qed.

(** X21 — the drag payload.  What [onDragStart] of a palette item writes
    under the format 'application/reactflow' is what [getData] reads
    back: the name of the item's type, never the empty string that a
    drag without such data gives, and different for different items;
    data under any other format is left as it was. *)
Theorem drag_payload_roundtrip (t : NodeType) (dataTransfer : gmap string string) :
  getData "application/reactflow" (onDragStart t dataTransfer) = typeName t
  ∧ getData "application/reactflow" (onDragStart t dataTransfer) ≠ EmptyString
  ∧ getData "application/reactflow" ∅ = EmptyString
  ∧ (∀ t', getData "application/reactflow" (onDragStart t' dataTransfer)
           = getData "application/reactflow" (onDragStart t dataTransfer) →
           t' = t)
  ∧ (∀ format, format ≠ "application/reactflow" →
               getData format (onDragStart t dataTransfer)
               = getData format dataTransfer).
Proof.
  assert (Hread : ∀ t', getData "application/reactflow" (onDragStart t' dataTransfer)
                        = typeName t').
  { intros t'. unfold getData, onDragStart, setData. by rewrite lookup_insert_eq. }
  split; [apply Hread|split; [|split; [done|split]]].
  - rewrite Hread. by destruct t.
  - intros t'. rewrite !Hread. apply typeName_inj.
  - intros format Hformat. unfold getData, onDragStart, setData.
    by rewrite lookup_insert_ne.
Qed.

(** X22 — a tap on the palette adds nothing.  App.tsx gives its palette
    no [onAddNode], so the click on a palette item and the Enter and
    space keys on it, which only call [onAddNode] when there is one,
    leave nodes, edges and counters as they are; nodes come onto the
    canvas by dragging alone. *)
Theorem palette_tap_adds_nothing (key : string) (t : NodeType) (st : AppState) :
  paletteClick appOnAddNode t st = st
  ∧ paletteKeyDown appOnAddNode key t st = st.
Proof.
  split; [done|]. unfold paletteKeyDown.
  by destruct (bool_decide (key = "Enter") || bool_decide (key = " ")).
Qed.

(** X23 — the template table is consistent.  Each of the five templates
    is filed under its own type, so the palette lists five items with
    pairwise different keys; the labels are pairwise different, and so
    are the colours, by which border, badge and minimap tell the types
    apart. *)
Theorem templates_consistent :
  (∀ t, tpl_type (NODE_TEMPLATES t) = t)
  ∧ length paletteItems = 5%nat
  ∧ NoDup (tpl_type <$> paletteItems)
  ∧ (∀ t1 t2, tpl_label (NODE_TEMPLATES t1) = tpl_label (NODE_TEMPLATES t2) → t1 = t2)
  ∧ (∀ t1 t2, tpl_color (NODE_TEMPLATES t1) = tpl_color (NODE_TEMPLATES t2) → t1 = t2)
  ∧ (∀ n m, nodeColor n = nodeColor m → type (data n) = type (data m)).
Proof.
  assert (Hcolor : ∀ t1 t2,
            tpl_color (NODE_TEMPLATES t1) = tpl_color (NODE_TEMPLATES t2) → t1 = t2).
  { intros [] []; cbn; intros Heq; try done; discriminate. }
  split; [by intros []|split; [done|split; [by_evaluation|split; [|split; [done|]]]]].
  - intros [] []; cbn; intros Heq; try done; discriminate.
  - intros n m. rewrite !nodeColor_template. apply Hcolor.
Qed.
